(** * Rivals recommender: scoring and ranking

    Shallow embedding of [src/Rivals.py] (classes [Hero] and [Recommender])
    and the properties of its scorer.

    Modelling conventions.
    - There are two scorers.  In the first, Python [float] values are
      idealised as exact rationals ([Q]): the rounding error of single
      floating-point operations, infinities and NaN are outside of it.
      [round(x, 4)] is the round-half-to-even rounding of the exact value
      to a multiple of 1/10000, returned in the normal form [n # 10000], so
      that two rounded scores are equal as numbers exactly when they are
      equal as terms.  It carries the properties that do not depend on the
      last digit of a score.  The second, module [F64], computes on
      binary64 floats as Python does, every operation rounded to the
      nearest float; the value of a score (C1) and its bound (C6) are
      settled on it.
    - The power operator [**] of floats is not a rational function.  It is a
      parameter [pow] of the scorer: [pow b e = None] stands for a power that
      Python cannot deliver as a float (an exception, or a complex result
      that [round] then rejects), which makes the whole query fail.
      [pow_dec] is a reference instance, exact where the power is rational
      and truncated to 12 decimals elsewhere.
    - [str] values are ASCII texts ([string]); [lower] is [str.lower]
      restricted to them, and the order on strings is the code-point order.
    - [dict] is a finite map ([gmap]); a dict literal handed to the
      constructor is the list of its items in insertion order.
    - [list.sort] is stable and uses only [<] on the keys; it is modelled by
      the stable insertion sort [list_sort].  On keys that [<] orders, a
      sorted and stable arrangement of a list is unique
      ([list_sort_unique]), so that the choice of the algorithm does not
      matter. *)

From Stdlib Require Import QArith Qround Qabs Qpower Lqa ZArith Ascii String.
From stdpp Require Import gmap strings list fin_maps sorting pretty.

Local Open Scope Q_scope.

(** ** Strings *)

(** [c.lower()] on one ASCII character. *)
Definition lower_ascii (c : ascii) : ascii :=
  let n := N_of_ascii c in
  if ((65 <=? n) && (n <=? 90))%N then ascii_of_N (n + 32) else c.

(** [s.lower()] *)
Fixpoint lower (s : string) : string :=
  match s with
  | EmptyString => EmptyString
  | String c s' => String (lower_ascii c) (lower s')
  end.

(** Two characters that differ at most in the case of a letter. *)
Definition same_letter (c d : ascii) : Prop :=
  c = d ∨
  ((65 <= N_of_ascii c <= 90)%N ∧ N_of_ascii d = (N_of_ascii c + 32)%N) ∨
  ((65 <= N_of_ascii d <= 90)%N ∧ N_of_ascii c = (N_of_ascii d + 32)%N).

(** [case_variant s t]: [t] is [s] with the case of some letters changed. *)
Inductive case_variant : string → string → Prop :=
  | cv_nil : case_variant EmptyString EmptyString
  | cv_cons c d s t :
      same_letter c d → case_variant s t →
      case_variant (String c s) (String d t).

(** ** Numbers *)

(** [a < b] on floats *)
Definition Qltb (a b : Q) : bool :=
  match Qcompare a b with Lt => true | _ => false end.

(** The builtins [min(a, b)] and [max(a, b)]: the first argument is kept
    unless the second is strictly smaller (larger). *)
Definition py_min (a b : Q) : Q := if Qltb b a then b else a.
Definition py_max (a b : Q) : Q := if Qltb a b then b else a.

(** Nearest integer, ties to the even one. *)
Definition round_half_even (x : Q) : Z :=
  let f := Qfloor x in
  match Qcompare (x - inject_Z f) (1 # 2) with
  | Lt => f
  | Gt => (f + 1)%Z
  | Eq => if Z.even f then f else (f + 1)%Z
  end.

(** [round(x, ndigits)] *)
Definition py_round (x : Q) (ndigits : nat) : Q :=
  let scale := Z.to_pos (10 ^ Z.of_nat ndigits) in
  Qmake (round_half_even (x * inject_Z (Z.pos scale))) scale.

(** ** Heroes *)

Record Hero := mkHero {
  name : string;
  roles : list string;
  map_scores : gmap string Q;
  role_proficiencies : gmap string Q;
  map_role_bonus : gmap (string * string) Q
}.

(** [d or {}] for an optional dict argument given by its items *)
Definition items_or_empty {K} (d : option (list (K * Q))) : list (K * Q) :=
  default [] d.

(** [{f(k): v for k, v in items}]: later items overwrite earlier ones. *)
Definition dict_comp {K K'} `{Countable K'} (f : K → K')
    (items : list (K * Q)) : gmap K' Q :=
  foldl (λ d kv, <[f kv.1 := kv.2]> d) ∅ items.

(** [Hero.__init__] *)
Definition Hero_init (name : string) (roles : list string)
    (map_scores role_proficiencies : option (list (string * Q)))
    (map_role_bonus : option (list ((string * string) * Q))) : Hero :=
  {| name := name;
     roles := lower <$> roles;
     map_scores := dict_comp lower (items_or_empty map_scores);
     role_proficiencies := dict_comp lower (items_or_empty role_proficiencies);
     map_role_bonus :=
       dict_comp (λ mr, (lower mr.1, lower mr.2)) (items_or_empty map_role_bonus) |}.

(** [Hero.raw_map_score] *)
Definition raw_map_score (h : Hero) (map_name : string) : Q :=
  default 0 (map_scores h !! lower map_name).

(** [Hero.role_proficiency] *)
Definition role_proficiency (h : Hero) (role : string) : Q :=
  default 0 (role_proficiencies h !! lower role).

(** [Hero.map_role_bonus_multiplier] *)
Definition map_role_bonus_multiplier (h : Hero) (map_name role : string) : Q :=
  default 1 (map_role_bonus h !! (lower map_name, lower role)).

(** ** Sorting and slicing *)

(** The sort key [(-t[1], t[0].name.lower())] *)
Definition sort_key (t : Hero * Q) : Q * string := (- t.2, lower (name t.1)).

(** [a < b] on the key tuples: the first components decide unless they are
    equal as numbers. *)
Definition key_ltb (a b : Q * string) : bool :=
  if Qeq_bool a.1 b.1 then String.ltb a.2 b.2 else Qltb a.1 b.1.

(** The order of the keys as a relation: a smaller first component, or
    equal first components and the second components in order. *)
Definition key_le (a b : Q * string) : Prop :=
  a.1 < b.1 ∨ (a.1 == b.1 ∧ String.leb a.2 b.2 = true).

(** Keys that [<] cannot tell apart. *)
Definition key_eqb (a b : Q * string) : bool :=
  Qeq_bool a.1 b.1 && String.eqb a.2 b.2.

Section Sort.
Context {A K : Type} (ltb : K → K → bool) (key : A → K).

(** [x] goes in front of the first element whose key is not smaller. *)
Fixpoint insert_key (x : A) (l : list A) : list A :=
  match l with
  | [] => [x]
  | y :: l' => if ltb (key y) (key x) then y :: insert_key x l' else x :: l
  end.

(** [l.sort(key=key)] *)
Fixpoint list_sort (l : list A) : list A :=
  match l with
  | [] => []
  | x :: l' => insert_key x (list_sort l')
  end.

(** [a] may stand before [b] in a sorted list: the key of [b] is not
    smaller than the key of [a]. *)
Definition in_order (a b : A) : Prop := ltb (key b) (key a) = false.

(** Two elements whose keys [<] cannot tell apart *)
Definition same_key (a b : A) : bool :=
  negb (ltb (key a) (key b)) && negb (ltb (key b) (key a)).
End Sort.

(** [l[:n]] for any integer [n]: a negative [n] counts from the end. *)
Definition slice_to {A} (l : list A) (n : Z) : list A :=
  if (0 <=? n)%Z then take (Z.to_nat n) l
  else take (Z.to_nat (Z.of_nat (length l) + n)) l.

(** ** The recommender *)

(** [[h for h in heroes if role_lc in h.roles]] *)
Definition candidates (heroes : list Hero) (role_lc : string) : list Hero :=
  filter (λ h, role_lc ∈ roles h) heroes.

(** The values of the local variables [map_norm] and [base] of
    [compute_score]. *)
Definition map_norm (h : Hero) (map_name : string) : Q :=
  let raw := raw_map_score h map_name in
  py_max 0 (py_min 1 (raw / 10)).

Definition base_score (h : Hero) (map_name role_lc : string)
    (map_weight role_weight : Q) : Q :=
  map_norm h map_name * map_weight + role_proficiency h role_lc * role_weight.

Section Recommender.
(** [b ** e] on floats.  It is called on the values of its arguments:
    [Qred] gives the fraction in lowest terms, so that [pow] cannot depend on
    how a number is written. *)
Variable pow : Q → Q → option Q.

(** The local function [compute_score] of [recommend], with the variables
    it captures as arguments. *)
Definition compute_score (map_name role_lc : string)
    (map_weight role_weight bonus_weight : Q) (h : Hero) : option Q :=
  let raw := raw_map_score h map_name in
  let map_norm := py_max 0 (py_min 1 (raw / 10)) in
  let role_prof := role_proficiency h role_lc in
  let base := map_norm * map_weight + role_prof * role_weight in
  let bonus := map_role_bonus_multiplier h map_name role_lc in
  p ← pow (Qred bonus) (Qred (bonus_weight * 10));
  let final := base * p in
  Some (py_round final 4).

(** [[(h, compute_score(h)) for h in candidates]] *)
Definition score_all (map_name role_lc : string)
    (map_weight role_weight bonus_weight : Q) (cands : list Hero)
    : option (list (Hero * Q)) :=
  mapM (λ h,
    s ← compute_score map_name role_lc map_weight role_weight bonus_weight h;
    Some (h, s)) cands.

(** [Recommender.recommend] on the dataset [heroes] *)
Definition recommend (heroes : list Hero) (role map_name : string)
    (top_n : Z) (map_weight role_weight bonus_weight : Q)
    : option (list (Hero * Q)) :=
  let role_lc := lower role in
  let candidates := candidates heroes role_lc in
  scored ← score_all map_name role_lc map_weight role_weight bonus_weight
             candidates;
  Some (slice_to (list_sort key_ltb sort_key scored) top_n).

(** The clamp of the specification *)

Definition clamp (x lo hi : Q) : Q :=
  if Qltb x lo then lo else if Qltb hi x then hi else x.
End Recommender.

(** What [main] shows of a result: the name and the score of each entry. *)
Definition shown (res : list (Hero * Q)) : list (string * Q) :=
  (λ t, (name t.1, t.2)) <$> res.

(** What Python guarantees of [1.0 ** e]: it is [1.0] for every float [e]. *)
Definition pow_of_one (pow : Q → Q → option Q) : Prop :=
  ∀ e, pow 1 e = Some 1.

(** Two scored entries that the ranking cannot tell apart: equal scores and
    equal lowercased names. *)
Definition same_rank (t u : Hero * Q) : bool :=
  key_eqb (sort_key t) (sort_key u).

(** [t] may stand before [u] in a ranking: a higher score, or the same
    score and a name that is not later in the alphabet *)
Definition ranked_before (t u : Hero * Q) : Prop :=
  u.2 < t.2 ∨
  (t.2 == u.2 ∧ String.leb (lower (name t.1)) (lower (name u.1)) = true).

(** A text without upper-case letters *)
Definition lowercase (s : string) : Prop := lower s = s.

(** ** A reference instance of the power operator *)

(** Bisection for the integer [k]-th root: the largest [r] with
    [lo <= r < hi] and [r ^ k <= n]. *)
Fixpoint iroot_bisect (fuel : nat) (k : positive) (n lo hi : Z) : Z :=
  match fuel with
  | O => lo
  | S fuel' =>
      if (hi - lo <=? 1)%Z then lo
      else
        let mid := ((lo + hi) / 2)%Z in
        if (mid ^ Z.pos k <=? n)%Z then iroot_bisect fuel' k n mid hi
        else iroot_bisect fuel' k n lo mid
  end.

Definition iroot (k : positive) (n : Z) : Z :=
  iroot_bisect (S (Z.to_nat (Z.log2_up (n + 2)))) k n 0 (n + 1).

(** [b ** e] as Python evaluates it on floats, on exact values: [1.0] for a
    zero exponent or a base of [1.0]; [ZeroDivisionError] for zero to a
    negative power; the exact power for an integer exponent; no float for a
    negative base with a fractional exponent; otherwise the real power, cut
    after 12 decimals. *)
Definition pow_dec (b e : Q) : option Q :=
  let e' := Qred e in
  if Qeq_bool e 0 then Some 1
  else if Qeq_bool b 1 then Some 1
  else if Qeq_bool b 0 then (if Qltb e 0 then None else Some 0)
  else if (Qden e' =? 1)%positive then Some (Qred (Qpower b (Qnum e')))
  else if Qltb b 0 then None
  else
    let x := Qpower b (Qnum e') in
    let digits := (10 ^ 12)%positive in
    let scaled := Qfloor (x * inject_Z (Z.pos digits ^ Z.pos (Qden e'))) in
    Some (Qred (Qmake (iroot (Qden e') scaled) digits)).

(** ** The dataset of the script *)

Definition spider_man : Hero :=
  Hero_init "Spider-Man" ["DPS"]
    (Some [("midtown", 9.5); ("arakko", 7.0); ("central park", 9.0)])
    (Some [("DPS", 0.95)])
    (Some [(("midtown", "DPS"), 1.05)]).

Definition HEROES : list Hero := [
  spider_man;
  Hero_init "Wolverine" ["DPS"; "Tank"]
    (Some [("midtown", 8.0); ("yggdrasill path", 8.5); ("krakoa", 7.5)])
    (Some [("DPS", 0.85); ("Tank", 0.9)])
    None;
  Hero_init "Storm" ["Support"; "DPS"]
    (Some [("central park", 8.5); ("symbiotic surface", 9.0)])
    (Some [("Support", 0.9); ("DPS", 0.7)])
    (Some [(("symbiotic surface", "support"), 1.08)]);
  Hero_init "Doctor Strange" ["Support"]
    (Some [("central park", 7.0); ("hall of djalia", 8.5)])
    (Some [("Support", 0.92)])
    None;
  Hero_init "Magneto" ["DPS"]
    (Some [("shin-shibuya", 8.8); ("spider-islands", 7.9)])
    (Some [("DPS", 0.88)])
    (Some [(("shin-shibuya", "dps"), 1.12)]);
  Hero_init "Iron Man" ["DPS"; "Support"]
    (Some [("central park", 8.0); ("midtown", 8.8); ("royal palace", 7.2)])
    (Some [("DPS", 0.9); ("Support", 0.6)])
    (Some [(("midtown", "dps"), 1.04)]);
  Hero_init "Black Panther" ["DPS"; "Support"]
    (Some [("birnin tchalla", 9.4); ("central park", 7.8); ("krakoa", 8.2)])
    (Some [("DPS", 0.9); ("Support", 0.7)])
    (Some [(("birnin tchalla", "dps"), 1.08)]);
  Hero_init "Hulk" ["Tank"; "DPS"]
    (Some [("krakoa", 9.0); ("hells heaven", 8.6); ("yggdrasill path", 7.0)])
    (Some [("Tank", 0.95); ("DPS", 0.6)])
    None;
  Hero_init "Scarlet Witch" ["Support"; "DPS"]
    (Some [("hall of djalia", 9.1); ("symbiotic surface", 8.4); ("shin-shibuya", 8.0)])
    (Some [("Support", 0.9); ("DPS", 0.75)])
    (Some [(("hall of djalia", "support"), 1.07)]);
  Hero_init "Groot" ["Tank"; "Support"]
    (Some [("royal palace", 8.6); ("yggdrasill path", 8.0)])
    (Some [("Tank", 0.88); ("Support", 0.7)])
    None;
  Hero_init "Punisher" ["DPS"]
    (Some [("midtown", 8.9); ("spider-islands", 7.6); ("arakko", 6.5)])
    (Some [("DPS", 0.86)])
    None;
  Hero_init "Black Widow" ["DPS"; "Support"]
    (Some [("midtown", 8.3); ("shin-shibuya", 8.1); ("central park", 7.5)])
    (Some [("DPS", 0.82); ("Support", 0.65)])
    None ].

(** Three heroes without any map, proficiency or bonus data, two of them
    with names that differ only in case. *)
Definition hero_beta : Hero := Hero_init "beta" ["dps"] None None None.
Definition hero_ALPHA : Hero := Hero_init "ALPHA" ["Dps"] None None None.
Definition hero_Alpha : Hero := Hero_init "Alpha" ["DPS"] None None None.
Definition TIES : list Hero := [hero_beta; hero_ALPHA; hero_Alpha].

(** A hero at the top of both scales, without bonus, and one whose base,
    [0.9 * 0.6 + 0.935 * 0.35] under the default weights, is halfway
    between 0.8672 and 0.8673 as a number, and above it as a float. *)
Definition hero_max : Hero :=
  Hero_init "Max" ["DPS"] (Some [("arena", 10)]) (Some [("DPS", 1)]) None.
Definition hero_tie : Hero :=
  Hero_init "Tie" ["DPS"] (Some [("arena", 9.0)]) (Some [("DPS", 0.935)]) None.

(** The default arguments of [recommend] *)
Definition default_top_n : Z := 3.
Definition default_map_weight : Q := 0.6.
Definition default_role_weight : Q := 0.35.
Definition default_bonus_weight : Q := 0.05.

(** * The scorer on binary64 floats

    The definitions above idealise floats as exact rationals.  This module
    holds the scorer as Python computes it: every float is a binary64
    value, and every operation gives the value nearest to the exact result,
    ties to the even one.  A finite float is held as the rational it
    denotes (the two zeros of binary64 are one value here: they compare
    equal, and the scorer cannot tell them apart except in the sign of a
    zero result). *)
Module F64.

(** [2 ** k] for an integer [k] *)
Definition pow2 (k : Z) : Q := 2 ^ k.

(** The integer [e] with [2 ** e <= x < 2 ** (e + 1)], for [x > 0] *)
Definition ilog2 (x : Q) : Z :=
  let k := (Z.log2 (Qnum x) - Z.log2 (Z.pos (Qden x)))%Z in
  if Qle_bool (pow2 k) x then k else (k - 1)%Z.

(** The exponent of the last binary digit that a float near [x >= 0] holds:
    53 digits, and no digit below [2 ** -1074]. *)
Definition fexp (x : Q) : Z := Z.max (ilog2 x - 52) (-1074).

(** The multiple of [2 ** fexp x] nearest to [x >= 0], ties to even *)
Definition rnd_abs (x : Q) : Q :=
  let u := pow2 (fexp x) in
  Qred (inject_Z (round_half_even (x / u)) * u).

(** Rounding to nearest, ties to even, with an unbounded exponent *)
Definition rnd (x : Q) : Q :=
  if Qltb x 0 then - rnd_abs (- x) else rnd_abs x.

Inductive float := Fin (q : Q) | Inf (negative : bool) | NaN.

(** The float nearest to a rational: what Python holds for a decimal
    literal, and what an operation returns for its exact result.  Beyond
    the largest finite float it is an infinity. *)
Definition of_Q (x : Q) : float :=
  let r := rnd x in
  if Qle_bool (pow2 1024) (Qabs r) then Inf (Qltb r 0) else Fin r.

(** A finite float: a rational that binary64 holds, in lowest terms as
    every operation returns it *)
Definition finite (x : float) : Prop :=
  match x with Fin a => of_Q a = Fin a | _ => False end.

(** [x + y] *)
Definition add (x y : float) : float :=
  match x, y with
  | NaN, _ | _, NaN => NaN
  | Inf s, Inf s' => if Bool.eqb s s' then Inf s else NaN
  | Inf s, Fin _ | Fin _, Inf s => Inf s
  | Fin a, Fin b => of_Q (a + b)
  end.

(** [x * y] *)
Definition mul (x y : float) : float :=
  match x, y with
  | NaN, _ | _, NaN => NaN
  | Inf s, Inf s' => Inf (xorb s s')
  | Inf s, Fin a | Fin a, Inf s =>
      if Qeq_bool a 0 then NaN else Inf (xorb s (Qltb a 0))
  | Fin a, Fin b => of_Q (a * b)
  end.

(** [x / y]; [None] is the [ZeroDivisionError] for a zero divisor. *)
Definition div (x y : float) : option float :=
  match y with
  | Fin b =>
      if Qeq_bool b 0 then None
      else Some match x with
                | Fin a => of_Q (a / b)
                | Inf s => Inf (xorb s (Qltb b 0))
                | NaN => NaN
                end
  | Inf _ => Some match x with Fin _ => Fin 0 | _ => NaN end
  | NaN => Some NaN
  end.

(** [- x] *)
Definition neg (x : float) : float :=
  match x with
  | Fin a => Fin (- a)
  | Inf s => Inf (negb s)
  | NaN => NaN
  end.

(** [x < y] and [x == y]: false whenever a NaN is compared. *)
Definition ltb (x y : float) : bool :=
  match x, y with
  | NaN, _ | _, NaN => false
  | Fin a, Fin b => Qltb a b
  | Fin _, Inf s => negb s
  | Inf s, Fin _ => s
  | Inf s, Inf s' => s && negb s'
  end.

Definition eqb (x y : float) : bool :=
  match x, y with
  | Fin a, Fin b => Qeq_bool a b
  | Inf s, Inf s' => Bool.eqb s s'
  | _, _ => false
  end.

(** [x <= y] *)
Definition leb (x y : float) : bool := ltb x y || eqb x y.

(** The builtins [min(a, b)] and [max(a, b)] *)
Definition py_min (a b : float) : float := if ltb b a then b else a.
Definition py_max (a b : float) : float := if ltb a b then b else a.

(** [round(x, ndigits)] for [ndigits >= 0]: the exact value of [x] is
    rounded to [ndigits] decimals, ties to even, and the float nearest to
    this decimal number is returned; an infinity or a NaN is returned as
    it is. *)
Definition py_round (x : float) (ndigits : nat) : float :=
  match x with
  | Fin a => of_Q (py_round a ndigits)
  | _ => x
  end.

(** The sort key [(-t[1], t[0].name.lower())] and [<] on such tuples: the
    first components decide unless they are equal. *)
Definition sort_key (t : Hero * float) : float * string :=
  (neg t.2, lower (name t.1)).

Definition key_ltb (a b : float * string) : bool :=
  if eqb a.1 b.1 then String.ltb a.2 b.2 else ltb a.1 b.1.

Section Scorer.
(** [b ** e] on floats; [None] stands for a power that Python cannot
    deliver as a float. *)
Variable pow : float → float → option float.

(** The local function [compute_score] of [recommend].  A hero holds its
    numbers as they are written; [of_Q] gives the float that Python holds
    for each. *)
Definition compute_score (map_name role_lc : string)
    (map_weight role_weight bonus_weight : float) (h : Hero) : option float :=
  let raw := of_Q (raw_map_score h map_name) in
  q ← div raw (of_Q 10);
  let map_norm := py_max (of_Q 0) (py_min (of_Q 1) q) in
  let role_prof := of_Q (role_proficiency h role_lc) in
  let base := add (mul map_norm map_weight) (mul role_prof role_weight) in
  let bonus := of_Q (map_role_bonus_multiplier h map_name role_lc) in
  p ← pow bonus (mul bonus_weight (of_Q 10));
  let final := mul base p in
  Some (py_round final 4).

(** [[(h, compute_score(h)) for h in candidates]] *)
Definition score_all (map_name role_lc : string)
    (map_weight role_weight bonus_weight : float) (cands : list Hero)
    : option (list (Hero * float)) :=
  mapM (λ h,
    s ← compute_score map_name role_lc map_weight role_weight bonus_weight h;
    Some (h, s)) cands.

(** [Recommender.recommend] on the dataset [heroes].  The key order is
    total unless a score is NaN. *)
Definition recommend (heroes : list Hero) (role map_name : string)
    (top_n : Z) (map_weight role_weight bonus_weight : float)
    : option (list (Hero * float)) :=
  let role_lc := lower role in
  let candidates := candidates heroes role_lc in
  scored ← score_all map_name role_lc map_weight role_weight bonus_weight
             candidates;
  Some (slice_to (list_sort key_ltb sort_key scored) top_n).

(** *** The scoring rule in the words of the specification, on floats *)

Definition clamp (x lo hi : float) : float :=
  if ltb x lo then lo else if ltb hi x then hi else x.

Definition spec_score (h : Hero) (role context : string)
    (mapWeight roleWeight bonusWeight : float) : option float :=
  let rawContextScore := of_Q (default 0 (map_scores h !! lower context)) in
  let roleProficiency :=
    of_Q (default 0 (role_proficiencies h !! lower role)) in
  let bonus :=
    of_Q (default 1 (map_role_bonus h !! (lower context, lower role))) in
  contextNorm ← (λ x, clamp x (of_Q 0) (of_Q 1)) <$> div rawContextScore (of_Q 10);
  let base :=
    add (mul contextNorm mapWeight) (mul roleProficiency roleWeight) in
  power ← pow bonus (mul bonusWeight (of_Q 10));
  Some (py_round (mul base power) 4).
End Scorer.

(** What Python guarantees of [1.0 ** e]: it is [1.0] for every float [e]. *)
Definition pow_of_one (pow : float → float → option float) : Prop :=
  ∀ e, pow (Fin 1) e = Some (Fin 1).

(** A reference power for examples: the cases in which [**] is exact on
    every platform, [x ** 0.0 = 1.0], [1.0 ** y = 1.0] and [x ** 1.0 = x];
    it delivers no value elsewhere. *)
Definition pow_exact (b e : float) : option float :=
  if eqb e (Fin 0) then Some (Fin 1)
  else if eqb b (Fin 1) then Some (Fin 1)
  else if eqb e (Fin 1) then Some b
  else None.
End F64.

(** * The rest of the script *)

(** ** What a constructed hero holds *)

(** The value that a dict built from [items] holds for the key [k]: that of
    the last item whose key [f] sends to [k]. *)
Definition kept_item {K K'} `{EqDecision K'} (f : K → K') (k : K')
    (items : list (K * Q)) : option Q :=
  snd <$> last (filter (λ kv, f kv.1 = k) items).

(** A hero whose bonus for ("arena", "dps") is negative, and one that plays
    another role *)
Definition hero_broken : Hero :=
  Hero_init "Broken" ["DPS"] None None (Some [(("arena", "dps"), -2)]).
Definition hero_tank : Hero := Hero_init "Wall" ["Tank"] None None None.

(** ** Rankings *)

(** What Python guarantees of [b ** 0.0]: it is [1.0] for every float [b]. *)
Definition pow_of_zero_exponent (pow : Q → Q → option Q) : Prop :=
  ∀ b, pow b 0 = Some 1.

(** A power that is defined for every positive base and the exponent [e], as
    Python's is for [e = 0.5] *)
Definition pow_on_positive (pow : Q → Q → option Q) (e : Q) : Prop :=
  ∀ b, 0 < b → is_Some (pow b e).

(** What remains of an entry of a ranking when the case of the name is
    forgotten: the score and the lowercased name. *)
Definition rank_line (t : Hero * Q) : Q * string := (t.2, lower (name t.1)).

(** The order of such lines in a ranking *)
Definition line_before (a b : Q * string) : Prop :=
  b.1 < a.1 ∨ (a.1 == b.1 ∧ String.leb a.2 b.2 = true).

(** ** Text *)

(** The newline and the double quote *)
Definition nl : string := String "010"%char EmptyString.
Definition dquote : string := String "034"%char EmptyString.

(** [c.isspace()] on one ASCII character: the codes 9 to 13 and 28 to 32. *)
Definition is_space (c : ascii) : bool :=
  let n := N_of_ascii c in
  (((9 <=? n) && (n <=? 13)) || ((28 <=? n) && (n <=? 32)))%N.

(** [s.lstrip()] *)
Fixpoint lstrip (s : string) : string :=
  match s with
  | EmptyString => EmptyString
  | String c s' => if is_space c then lstrip s' else s
  end.

(** [s.rstrip()] *)
Fixpoint rstrip (s : string) : string :=
  match s with
  | EmptyString => EmptyString
  | String c s' =>
      match rstrip s' with
      | EmptyString => if is_space c then EmptyString else String c EmptyString
      | r => String c r
      end
  end.

(** [s.strip()] *)
Definition strip (s : string) : string := rstrip (lstrip s).

(** [sep.join(l)] *)
Fixpoint join (sep : string) (l : list string) : string :=
  match l with
  | [] => EmptyString
  | [x] => x
  | x :: l' => x +:+ sep +:+ join sep l'
  end.

(** ** Input and output

    The script talks to the player through [print] and [input].  A run is a
    function of the world it starts in: the lines that the standard input
    still holds, and the texts written to the standard output so far.  It ends
    with a value or with an exception. *)

(** The exceptions of the script.  [ScoreError] stands for whatever a
    failing power raises inside [recommend]. *)
Inductive exn := EOFError | ValueError | IndexError | KeyError | ScoreError.

Inductive result (A : Type) :=
  | Ok (a : A)
  | Raise (e : exn).
Arguments Ok {A} a.
Arguments Raise {A} e.

Record world := mkWorld { stdin : list string; stdout : list string }.

Definition IO (A : Type) : Type := world → result A * world.

Definition io_ret {A} (a : A) : IO A := λ w, (Ok a, w).

Definition io_raise {A} (e : exn) : IO A := λ w, (Raise e, w).

Definition io_bind {A B} (m : IO A) (f : A → IO B) : IO B := λ w,
  match m w with
  | (Ok a, w') => f a w'
  | (Raise e, w') => (Raise e, w')
  end.

Notation "x <- m ;; f" := (io_bind m (λ x, f))
  (at level 100, m at next level, right associativity).
Notation "m ;;; f" := (io_bind m (λ _, f))
  (at level 100, right associativity).

(** A value of the scorer, or the exception it stands for *)
Definition io_score {A} (r : option A) : IO A :=
  match r with
  | Some a => io_ret a
  | None => io_raise ScoreError
  end.

(** [print(s)] *)
Definition print (s : string) : IO unit := λ w,
  (Ok tt, {| stdin := stdin w; stdout := stdout w ++ [s +:+ nl] |}).

(** [input(prompt)]: the prompt is written, then a line is read;
    [EOFError] when no line is left. *)
Definition input (prompt : string) : IO string := λ w,
  let out := stdout w ++ [prompt] in
  match stdin w with
  | [] => (Raise EOFError, {| stdin := []; stdout := out |})
  | line :: lines => (Ok line, {| stdin := lines; stdout := out |})
  end.

(** [l.index(x)] *)
Definition list_index (l : list string) (x : string) : IO nat :=
  match list_find (λ y, y = x) l with
  | Some (i, _) => io_ret i
  | None => io_raise ValueError
  end.

(** [l[i]] for an index that is not negative *)
Definition list_getitem {A} (l : list A) (i : nat) : IO A :=
  match l !! i with
  | Some a => io_ret a
  | None => io_raise IndexError
  end.

(** [d[k]] for a dict given by its items *)
Definition dict_getitem {A} (d : list (string * A)) (k : string) : IO A :=
  match list_find (λ kv, kv.1 = k) d with
  | Some (_, kv) => io_ret kv.2
  | None => io_raise KeyError
  end.

(** ** The prompt *)

(** The message of [_prompt_choice] for an answer that is no option *)
Definition invalid_choice (options : list string) : string :=
  "Invalid choice. Options are:" +:+ nl +:+ " - "
    +:+ join (nl +:+ " - ") options.

(** The loop [while True] of [_prompt_choice].  Every round reads one line,
    so the rounds are counted along [lines], the input of the world at the
    start of the round; in the round that starts on an empty input, [input]
    raises, and the rest of the round is not reached. *)
Fixpoint prompt_loop (prompt : string) (options opts_lc : list string)
    (lines : list string) : IO string :=
  print prompt ;;;
  resp_line <- input "> " ;;
  let resp := strip resp_line in
  if decide (lower resp ∈ opts_lc) then
    i <- list_index opts_lc (lower resp) ;;
    list_getitem options i
  else
    print (invalid_choice options) ;;;
    match lines with
    | [] => io_raise EOFError
    | _ :: lines' => prompt_loop prompt options opts_lc lines'
    end.

(** [_prompt_choice] *)
Definition _prompt_choice (prompt : string) (options : list string)
    : IO string := λ w,
  let opts_lc := lower <$> options in
  prompt_loop prompt options opts_lc (stdin w) w.

(** An answer that [_prompt_choice] accepts *)
Definition valid_answer (options : list string) (answer : string) : Prop :=
  lower (strip answer) ∈ lower <$> options.

#[global] Instance valid_answer_dec options answer :
  Decision (valid_answer options answer).
Proof. unfold valid_answer. apply _. Defined.

(** The option that an answer stands for: the first one that is the answer
    up to the case of letters, once the white space around the answer is
    removed *)
Definition chosen_option (options : list string) (answer : string)
    : option string :=
  snd <$> list_find (λ o, lower o = lower (strip answer)) options.

(** What [_prompt_choice] writes for an answer that it rejects, and what it
    writes before it reads an answer *)
Definition asked (prompt : string) : list string := [prompt +:+ nl; "> "].

Definition rejected (prompt : string) (options : list string) : list string :=
  asked prompt ++ [invalid_choice options +:+ nl].

(** Two answers that differ in the case of letters and in the white space
    around them only *)
Definition same_answer (a b : string) : Prop :=
  lower (strip a) = lower (strip b).

(** ** The dialogue *)

(** The dict [gamemodes] of [main], by its items *)
Definition gamemodes : list (string * list string) :=
  [ ("Convergence",
     ["Central Park"; "Hall of Djalia"; "Symbiotic Surface"; "Shin-Shibuya"]);
    ("Convoy",
     ["Midtown"; "Arakko"; "Spider-Islands"; "Yggdrasill Path"]);
    ("Domination",
     ["Birnin TChalla"; "Celestial Husk"; "Hells Heaven"; "Krakoa";
      "Royal Palace"]) ].

Section Script.
(** [b ** e] on floats, as for [recommend], and [str(x)] of a float, which
    an f-string puts in the place of [{score}]. *)
Variable pow : Q → Q → option Q.
Variable float_str : Q → string.

(** The line of [main] for the entry number [i] of the result *)
Definition result_line (i : nat) (hero : Hero) (score : Q) : string :=
  pretty i +:+ ". " +:+ name hero +:+ " â€” score: " +:+ float_str score.

(** The loop [for i, (hero, score) in enumerate(results, start=i)] *)
Fixpoint print_results (i : nat) (results : list (Hero * Q)) : IO unit :=
  match results with
  | [] => io_ret tt
  | (hero, score) :: results' =>
      print (result_line i hero score) ;;;
      print_results (S i) results'
  end.

(** The two messages of [main] *)
Definition no_heroes (role : string) : string :=
  "No heroes found for role " +:+ dquote +:+ role +:+ dquote
    +:+ ". Try another role or add heroes to the dataset.".

Definition top_heroes (n : nat) (role map_choice : string) : string :=
  "Top " +:+ pretty n +:+ " heroes for role " +:+ dquote +:+ role +:+ dquote
    +:+ " on " +:+ map_choice +:+ ":".

(** What [main] writes once it has a result: the header and the lines of
    the entries, numbered from [i], or the message for an empty result *)
Fixpoint result_lines (i : nat) (results : list (Hero * Q)) : list string :=
  match results with
  | [] => []
  | (hero, score) :: results' =>
      (result_line i hero score +:+ nl) :: result_lines (S i) results'
  end.

Definition report (role map_choice : string) (results : list (Hero * Q))
    : list string :=
  match results with
  | [] => [no_heroes role +:+ nl]
  | _ :: _ =>
      (top_heroes (length results) role map_choice +:+ nl)
        :: result_lines 1 results
  end.

(** [main] *)
Definition main : IO unit :=
  print "Which gamemode are you playing?" ;;;
  gamemode <- _prompt_choice "Choose a gamemode:" gamemodes.*1 ;;
  maps <- dict_getitem gamemodes gamemode ;;
  map_choice <- _prompt_choice "Which map are you playing?" maps ;;
  role_line <- input ("Which role are you picking? (e.g. DPS, Support, Tank)"
                      +:+ nl +:+ "> ") ;;
  let role := strip role_line in
  results <- io_score (recommend pow HEROES role map_choice 3
                         default_map_weight default_role_weight
                         default_bonus_weight) ;;
  match results with
  | [] => print (no_heroes role)
  | _ :: _ =>
      print (top_heroes (length results) role map_choice) ;;;
      print_results 1 results
  end.
End Script.

(** * Properties *)

(** ** Lowercasing *)

Lemma N_of_lower_ascii c :
  N_of_ascii (lower_ascii c) =
  if ((65 <=? N_of_ascii c) && (N_of_ascii c <=? 90))%N
  then (N_of_ascii c + 32)%N else N_of_ascii c.
Proof.
  unfold lower_ascii.
  destruct ((65 <=? N_of_ascii c)%N && (N_of_ascii c <=? 90)%N) eqn:E; [|done].
  apply andb_prop in E as [E1 E2].
  apply N.leb_le in E1, E2.
  apply N_ascii_embedding. lia.
Qed.

Lemma N_of_ascii_inj c d : N_of_ascii c = N_of_ascii d → c = d.
Proof.
  intros E. rewrite <- (ascii_N_embedding c), <- (ascii_N_embedding d).
  by rewrite E.
Qed.

Ltac N_range_cases :=
  repeat case_match;
  repeat match goal with
  | H : (_ && _) = true |- _ => apply andb_prop in H as [? ?]
  | H : (_ && _) = false |- _ => apply andb_false_iff in H as [?|?]
  | H : (_ <=? _)%N = true |- _ => apply N.leb_le in H
  | H : (_ <=? _)%N = false |- _ => apply N.leb_gt in H
  end.

Lemma lower_ascii_idemp c : lower_ascii (lower_ascii c) = lower_ascii c.
Proof.
  apply N_of_ascii_inj. rewrite !N_of_lower_ascii. N_range_cases; lia.
Qed.

Lemma lower_idemp s : lower (lower s) = lower s.
Proof. induction s as [|c s IH]; simpl; [done|]. by rewrite lower_ascii_idemp, IH. Qed.

Lemma same_letter_lower c d : same_letter c d ↔ lower_ascii c = lower_ascii d.
Proof.
  split.
  - intros [->|[[Hc Hd]|[Hd Hc]]]; [done| |];
      apply N_of_ascii_inj; rewrite !N_of_lower_ascii; N_range_cases; lia.
  - intros E. apply (f_equal N_of_ascii) in E. rewrite !N_of_lower_ascii in E.
    unfold same_letter. N_range_cases;
      first [ left; apply N_of_ascii_inj; lia
            | right; left; lia | right; right; lia ].
Qed.

Lemma case_variant_lower s t : case_variant s t ↔ lower s = lower t.
Proof.
  split.
  - induction 1 as [|c d s t Hcd _ IH]; simpl; [done|].
    apply same_letter_lower in Hcd. by rewrite Hcd, IH.
  - revert t. induction s as [|c s IH]; intros [|d t]; simpl; try done.
    + constructor.
    + intros [= E1 E2]. constructor; [by apply same_letter_lower | by apply IH].
Qed.

(** *** The order on strings *)

Lemma string_compare_refl s : String.compare s s = Eq.
Proof.
  induction s as [|c s IH]; simpl; [done|].
  unfold Ascii.compare. by rewrite N.compare_refl.
Qed.

Lemma string_compare_lt_trans a b c :
  String.compare a b = Lt → String.compare b c = Lt → String.compare a c = Lt.
Proof.
  revert b c. induction a as [|x a IH]; intros [|y b] [|z c]; simpl; try done.
  unfold Ascii.compare.
  destruct (N.compare_spec (N_of_ascii x) (N_of_ascii y)) as [Exy|Lxy|Gxy];
    destruct (N.compare_spec (N_of_ascii y) (N_of_ascii z)) as [Eyz|Lyz|Gyz];
    try done; intros Hab Hbc.
  - rewrite Exy, Eyz, N.compare_refl. eauto.
  - rewrite Exy. by apply N.compare_lt_iff in Lyz as ->.
  - rewrite <- Eyz. by apply N.compare_lt_iff in Lxy as ->.
  - assert (N_of_ascii x < N_of_ascii z)%N as Hxz by lia.
    by apply N.compare_lt_iff in Hxz as ->.
Qed.

Lemma string_ltb_false a b : String.ltb a b = false ↔ String.leb b a = true.
Proof.
  unfold String.ltb, String.leb. rewrite (String.compare_antisym a b).
  by destruct (String.compare b a).
Qed.

Lemma string_leb_refl a : String.leb a a = true.
Proof. unfold String.leb. by rewrite string_compare_refl. Qed.

Lemma string_leb_trans a b c :
  String.leb a b = true → String.leb b c = true → String.leb a c = true.
Proof.
  unfold String.leb.
  destruct (String.compare a b) eqn:Hab; [| |done].
  { apply String.compare_eq_iff in Hab as ->. done. }
  destruct (String.compare b c) eqn:Hbc; [| |done].
  { apply String.compare_eq_iff in Hbc as <-. by rewrite Hab. }
  by rewrite (string_compare_lt_trans a b c).
Qed.

(** *** Comparisons of numbers *)

Lemma Qltb_lt a b : Qltb a b = true ↔ a < b.
Proof. unfold Qltb. rewrite Qlt_alt. by destruct (Qcompare a b). Qed.

Lemma Qltb_ge a b : Qltb a b = false ↔ b <= a.
Proof.
  rewrite <- not_true_iff_false, Qltb_lt. split; [apply Qnot_lt_le | apply Qle_not_lt].
Qed.

Lemma Qeq_bool_false a b : Qeq_bool a b = false ↔ ¬ a == b.
Proof. by rewrite <- not_true_iff_false, Qeq_bool_iff. Qed.

Lemma key_ltb_false a b : key_ltb b a = false ↔ key_le a b.
Proof.
  unfold key_ltb, key_le. destruct (Qeq_bool b.1 a.1) eqn:E.
  - apply Qeq_bool_iff in E. rewrite string_ltb_false. split.
    + intros H. right. split; [by symmetry | done].
    + intros [H|[_ H]]; [lra | done].
  - apply Qeq_bool_false in E. rewrite Qltb_ge. split.
    + intros H. left. lra.
    + intros [H|[H _]]; [lra | by destruct E].
Qed.

Lemma key_le_trans a b c : key_le a b → key_le b c → key_le a c.
Proof.
  unfold key_le. intros [H1|[H1 L1]] [H2|[H2 L2]]; try (left; lra).
  right. split; [lra | by eapply string_leb_trans].
Qed.

Lemma key_ltb_asym a b : key_ltb a b = true → key_ltb b a = false.
Proof.
  unfold key_ltb. destruct (Qeq_bool a.1 b.1) eqn:E.
  - apply Qeq_bool_iff in E.
    assert (Qeq_bool b.1 a.1 = true) as ->.
    { apply Qeq_bool_iff. lra. }
    unfold String.ltb. rewrite (String.compare_antisym a.2 b.2).
    by destruct (String.compare b.2 a.2).
  - apply Qeq_bool_false in E. rewrite Qltb_lt. intros H.
    assert (Qeq_bool b.1 a.1 = false) as ->.
    { apply Qeq_bool_false. lra. }
    apply Qltb_ge. lra.
Qed.

Lemma key_ltb_eqb a b : key_eqb a b = true → key_ltb a b = false.
Proof.
  unfold key_eqb, key_ltb. intros [-> E]%andb_prop.
  apply String.eqb_eq in E as ->.
  unfold String.ltb. by rewrite string_compare_refl.
Qed.

(** *** Rounding *)

Lemma round_half_even_near x :
  inject_Z (round_half_even x) - (1 # 2) <= x ∧
  x <= inject_Z (round_half_even x) + (1 # 2).
Proof.
  unfold round_half_even.
  pose proof (Qfloor_le x) as Hlo. pose proof (Qlt_floor x) as Hhi.
  rewrite inject_Z_plus in Hhi. change (inject_Z 1) with 1 in Hhi.
  destruct (Qcompare_spec (x - inject_Z (Qfloor x)) (1 # 2)) as [E|L|G];
    [destruct (Z.even (Qfloor x))| |];
    rewrite ?inject_Z_plus; change (inject_Z 1) with 1; split; lra.
Qed.

Lemma round_half_even_inside x (n : Z) :
  inject_Z n - (1 # 2) < x → x < inject_Z n + (1 # 2) → round_half_even x = n.
Proof.
  intros Hlo Hhi. destruct (round_half_even_near x) as [H1 H2].
  assert (inject_Z (round_half_even x) < inject_Z n + 1) as Ha by lra.
  assert (inject_Z n < inject_Z (round_half_even x) + 1) as Hb by lra.
  change 1 with (inject_Z 1) in Ha, Hb.
  rewrite <- inject_Z_plus, <- Zlt_Qlt in Ha, Hb. lia.
Qed.

#[global] Instance round_half_even_proper : Proper (Qeq ==> eq) round_half_even.
Proof.
  intros x y E. unfold round_half_even.
  assert (Qfloor x = Qfloor y) as Ef by (by rewrite E).
  rewrite Ef.
  assert (Qcompare (x - inject_Z (Qfloor y)) (1 # 2)
        = Qcompare (y - inject_Z (Qfloor y)) (1 # 2)) as ->; [|done].
  by rewrite E.
Qed.

Lemma round_half_even_mono x y :
  x <= y → (round_half_even x <= round_half_even y)%Z.
Proof.
  intros Hxy.
  destruct (Z_le_gt_dec (round_half_even x) (round_half_even y)) as [?|Hgt]; [done|].
  exfalso.
  destruct (round_half_even_near x) as [Hx _].
  destruct (round_half_even_near y) as [_ Hy].
  assert (inject_Z (round_half_even y) + 1 <= inject_Z (round_half_even x)) as Hz.
  { change 1 with (inject_Z 1). rewrite <- inject_Z_plus, <- Zle_Qle. lia. }
  assert (x == y) as E by lra.
  rewrite E in Hgt. lia.
Qed.

Lemma py_round4_unfold x :
  py_round x 4 = Qmake (round_half_even (x * 10000)) 10000.
Proof. reflexivity. Qed.

#[global] Instance py_round_proper : Proper (Qeq ==> eq ==> eq) py_round.
Proof. intros x y E n ? <-. unfold py_round. by rewrite E. Qed.

Lemma py_round4_mono x y : x <= y → py_round x 4 <= py_round y 4.
Proof.
  intros H. rewrite !py_round4_unfold. unfold Qle; simpl.
  apply Z.mul_le_mono_nonneg_r; [done|].
  apply round_half_even_mono. lra.
Qed.

Lemma py_round4_near x :
  x - (1 # 20000) <= py_round x 4 ∧ py_round x 4 <= x + (1 # 20000).
Proof.
  rewrite py_round4_unfold.
  destruct (round_half_even_near (x * 10000)) as [H1 H2].
  set (n := round_half_even (x * 10000)) in *.
  assert (n # 10000 == inject_Z n * (1 # 10000)) as ->.
  { unfold Qeq, Qmult, inject_Z; simpl. lia. }
  clearbody n. split; lra.
Qed.

Lemma py_round4_inside x (n : Z) :
  inject_Z n - (1 # 2) < x * 10000 → x * 10000 < inject_Z n + (1 # 2) →
  py_round x 4 = Qmake n 10000.
Proof.
  intros H1 H2. rewrite py_round4_unfold. f_equal. by apply round_half_even_inside.
Qed.

(** ** Normalisation of the map score *)

Lemma map_norm_range h map_name : 0 <= map_norm h map_name ∧ map_norm h map_name <= 1.
Proof.
  unfold map_norm, py_max, py_min.
  repeat case_match;
    repeat match goal with
    | H : Qltb _ _ = true |- _ => apply Qltb_lt in H
    | H : Qltb _ _ = false |- _ => apply Qltb_ge in H
    end; split; lra.
Qed.

Lemma map_norm_clamp h map_name :
  map_norm h map_name == clamp (raw_map_score h map_name / 10) 0 1.
Proof.
  unfold map_norm, clamp, py_max, py_min.
  repeat case_match;
    repeat match goal with
    | H : Qltb _ _ = true |- _ => apply Qltb_lt in H
    | H : Qltb _ _ = false |- _ => apply Qltb_ge in H
    end; lra.
Qed.

(** ** Sorting *)

Section SortFacts.
Context {A K : Type} (ltb : K → K → bool) (key : A → K).

Lemma insert_key_perm x l : insert_key ltb key x l ≡ₚ x :: l.
Proof.
  induction l as [|y l IH]; simpl; [done|].
  destruct (ltb (key y) (key x)); [|done].
  rewrite IH. apply Permutation_swap.
Qed.

Lemma list_sort_perm l : list_sort ltb key l ≡ₚ l.
Proof.
  induction l as [|x l IH]; simpl; [done|].
  by rewrite insert_key_perm, IH.
Qed.

Lemma list_sort_length l : length (list_sort ltb key l) = length l.
Proof. by rewrite list_sort_perm. Qed.

Hypothesis ltb_asym : ∀ a b, ltb a b = true → ltb b a = false.
Hypothesis in_order_trans :
  ∀ a b c, in_order ltb key a b → in_order ltb key b c → in_order ltb key a c.

Lemma insert_key_sorted x l :
  StronglySorted (in_order ltb key) l →
  StronglySorted (in_order ltb key) (insert_key ltb key x l).
Proof.
  induction 1 as [|y l Hl IH Hy]; simpl.
  - repeat constructor.
  - destruct (ltb (key y) (key x)) eqn:E.
    + constructor; [done|].
      rewrite insert_key_perm. constructor; [|done].
      by apply ltb_asym.
    + constructor; [by constructor|].
      constructor; [done|].
      eapply Forall_impl; [exact Hy|]. intros z Hz.
      by apply (in_order_trans x y z).
Qed.

Lemma list_sort_sorted l :
  StronglySorted (in_order ltb key) (list_sort ltb key l).
Proof.
  induction l as [|x l IH]; simpl; [constructor|].
  by apply insert_key_sorted.
Qed.
End SortFacts.

Section Stable.
Context {A K : Type} (ltb : K → K → bool) (key : A → K).
Context (P : A → Prop) `{∀ x, Decision (P x)}.
(** The elements of the class [P] are indistinguishable for [ltb]. *)
Hypothesis P_class : ∀ x y, P x → P y → ltb (key y) (key x) = false.

Lemma insert_key_filter x l :
  filter P (insert_key ltb key x l) = filter P (x :: l).
Proof.
  induction l as [|y l IH]; simpl; [done|].
  destruct (ltb (key y) (key x)) eqn:E; [|done].
  rewrite filter_cons, IH, !filter_cons.
  destruct (decide (P y)) as [Py|]; [|done].
  destruct (decide (P x)) as [Px|]; [|done].
  rewrite P_class in E; done.
Qed.

Lemma list_sort_stable l : filter P (list_sort ltb key l) = filter P l.
Proof.
  induction l as [|x l IH]; simpl; [done|].
  by rewrite insert_key_filter, !filter_cons, IH.
Qed.
End Stable.

(** A sort is determined by being sorted and stable. *)

Section Unique.
Context {A K : Type} (ltb : K → K → bool) (key : A → K).
Hypothesis ltb_asym : ∀ a b, ltb a b = true → ltb b a = false.
Hypothesis in_order_trans :
  ∀ a b c, in_order ltb key a b → in_order ltb key b c → in_order ltb key a c.

Lemma same_key_true a b :
  same_key ltb key a b = true ↔ in_order ltb key a b ∧ in_order ltb key b a.
Proof.
  unfold same_key, in_order.
  rewrite andb_true_iff, !negb_true_iff. tauto.
Qed.

Lemma same_key_refl a : same_key ltb key a a = true.
Proof.
  apply same_key_true. unfold in_order.
  destruct (ltb (key a) (key a)) eqn:E; [|done].
  by rewrite (ltb_asym _ _ E) in E.
Qed.

Lemma same_key_class t x y :
  same_key ltb key t x = true → same_key ltb key t y = true →
  ltb (key y) (key x) = false.
Proof.
  rewrite !same_key_true. intros [_ Hxt] [Hty _].
  by apply (in_order_trans x t y).
Qed.

Lemma list_sort_same_key t l :
  filter (λ u, same_key ltb key t u = true) (list_sort ltb key l)
  = filter (λ u, same_key ltb key t u = true) l.
Proof. apply list_sort_stable. apply same_key_class. Qed.

Lemma sorted_head_in_order x l y :
  StronglySorted (in_order ltb key) (x :: l) → y ∈ x :: l →
  in_order ltb key x y.
Proof.
  intros [Hx _]%StronglySorted_cons [->|Hy]%elem_of_cons.
  - by destruct (proj1 (same_key_true x x) (same_key_refl x)).
  - rewrite Forall_forall in Hx. by apply Hx.
Qed.

(** A sorted list is determined by its classes of equal keys, each taken in
    order: two sorted lists with the same classes are the same list. *)
Lemma sorted_stable_unique l1 l2 :
  StronglySorted (in_order ltb key) l1 →
  StronglySorted (in_order ltb key) l2 →
  (∀ t, filter (λ u, same_key ltb key t u = true) l1
        = filter (λ u, same_key ltb key t u = true) l2) →
  l1 = l2.
Proof.
  revert l2. induction l1 as [|x l1 IH]; intros [|y l2] H1 H2 Hf; [done| | |].
  - specialize (Hf y). rewrite filter_nil, filter_cons_True in Hf; [done|].
    apply same_key_refl.
  - specialize (Hf x). rewrite filter_nil, filter_cons_True in Hf; [done|].
    apply same_key_refl.
  - assert (x ∈ y :: l2) as Hx.
    { eapply (list_elem_of_filter (λ u, same_key ltb key x u = true)).
      rewrite <- (Hf x), filter_cons_True by apply same_key_refl. left. }
    assert (y ∈ x :: l1) as Hy.
    { eapply (list_elem_of_filter (λ u, same_key ltb key y u = true)).
      rewrite (Hf y), filter_cons_True by apply same_key_refl. left. }
    assert (same_key ltb key x y = true) as Hxy.
    { apply same_key_true. split; by eapply sorted_head_in_order. }
    assert (x = y) as <-.
    { pose proof (Hf x) as Hfx.
      rewrite !filter_cons_True in Hfx by (done || apply same_key_refl).
      by injection Hfx. }
    f_equal. apply IH.
    + by apply StronglySorted_cons in H1 as [_ ?].
    + by apply StronglySorted_cons in H2 as [_ ?].
    + intros t. specialize (Hf t). rewrite !filter_cons in Hf.
      destruct (decide (same_key ltb key t x = true)); [by injection Hf|done].
Qed.

(** Every stable sort returns what [list_sort] returns. *)
Lemma list_sort_unique l l' :
  StronglySorted (in_order ltb key) l' →
  (∀ t, filter (λ u, same_key ltb key t u = true) l'
        = filter (λ u, same_key ltb key t u = true) l) →
  l' = list_sort ltb key l.
Proof.
  intros Hs Hf. apply sorted_stable_unique; [done| |].
  - by apply list_sort_sorted.
  - intros t. by rewrite list_sort_same_key.
Qed.
End Unique.

(** ** Slicing *)

Lemma slice_to_prefix {A} (l : list A) n : slice_to l n `prefix_of` l.
Proof. unfold slice_to. case_match; apply prefix_take. Qed.

Lemma slice_to_length {A} (l : list A) n :
  (0 <= n)%Z → Z.of_nat (length (slice_to l n)) = Z.min n (Z.of_nat (length l)).
Proof.
  intros Hn. unfold slice_to.
  destruct (Z.leb_spec 0 n); [|lia]. rewrite length_take. lia.
Qed.

Lemma slice_to_neg {A} (l : list A) n :
  (n < 0)%Z → slice_to l n = take (length l - Z.to_nat (- n)) l.
Proof.
  intros Hn. unfold slice_to.
  destruct (Z.leb_spec 0 n); [lia|]. f_equal. lia.
Qed.

Lemma slice_to_all {A} (l : list A) n :
  (Z.of_nat (length l) <= n)%Z → slice_to l n = l.
Proof.
  intros Hn. unfold slice_to.
  destruct (Z.leb_spec 0 n); [|lia]. apply take_ge. lia.
Qed.

(** ** The recommender *)

Section RecommendFacts.
Variable pow : Q → Q → option Q.

Lemma score_all_Some map_name role_lc mw rw bw cands scored :
  score_all pow map_name role_lc mw rw bw cands = Some scored ↔
  Forall2 (λ h t, t.1 = h ∧ compute_score pow map_name role_lc mw rw bw h = Some t.2)
    cands scored.
Proof.
  unfold score_all. rewrite mapM_Some.
  split; intros HF; (eapply Forall2_impl; [exact HF|]); simpl; intros h [h' s].
  - destruct (compute_score _ _ _ _ _ _ h); simpl; [|done]. by intros [= <- <-].
  - simpl. by intros [-> ->].
Qed.

Lemma score_all_fst map_name role_lc mw rw bw cands scored :
  score_all pow map_name role_lc mw rw bw cands = Some scored →
  scored.*1 = cands.
Proof.
  rewrite score_all_Some. induction 1 as [|h t ?? [E _]]; simpl; [done|].
  by f_equal.
Qed.

Lemma score_all_length map_name role_lc mw rw bw cands scored :
  score_all pow map_name role_lc mw rw bw cands = Some scored →
  length scored = length cands.
Proof. intros H. by rewrite <- (score_all_fst _ _ _ _ _ _ _ H), length_fmap. Qed.

Lemma score_all_elem map_name role_lc mw rw bw cands scored h s :
  score_all pow map_name role_lc mw rw bw cands = Some scored →
  (h, s) ∈ scored →
  h ∈ cands ∧ compute_score pow map_name role_lc mw rw bw h = Some s.
Proof.
  rewrite score_all_Some. intros HF Hin.
  apply list_elem_of_lookup_1 in Hin as [i Hi].
  destruct (Forall2_lookup_r _ _ _ _ _ HF Hi) as (h' & Hh' & E1 & E2).
  simpl in *; subst. split; [by eapply list_elem_of_lookup_2|done].
Qed.

Lemma score_all_is_Some map_name role_lc mw rw bw cands :
  is_Some (score_all pow map_name role_lc mw rw bw cands) ↔
  ∀ h, h ∈ cands →
    is_Some (pow (Qred (map_role_bonus_multiplier h map_name role_lc))
                 (Qred (bw * 10))).
Proof.
  unfold score_all. rewrite mapM_is_Some, Forall_forall.
  split; intros Hh h Hin; specialize (Hh h Hin); revert Hh;
    unfold compose, compute_score; cbv beta zeta;
    destruct (pow _ _); simpl; rewrite ?is_Some_alt; done.
Qed.

Lemma recommend_Some heroes role map_name top_n mw rw bw res :
  recommend pow heroes role map_name top_n mw rw bw = Some res ↔
  ∃ scored,
    score_all pow map_name (lower role) mw rw bw
      (candidates heroes (lower role)) = Some scored ∧
    res = slice_to (list_sort key_ltb sort_key scored) top_n.
Proof.
  unfold recommend; cbv zeta.
  destruct (score_all _ _ _ _ _ _ _) as [sc|]; simpl.
  - split; [intros [= <-]; eauto | by intros (sc' & [= <-] & ->)].
  - split; [done | by intros (? & ? & _)].
Qed.

Lemma recommend_is_Some heroes role map_name top_n mw rw bw :
  is_Some (recommend pow heroes role map_name top_n mw rw bw) ↔
  ∀ h, h ∈ candidates heroes (lower role) →
    is_Some (pow (Qred (map_role_bonus_multiplier h map_name (lower role)))
                 (Qred (bw * 10))).
Proof.
  rewrite <- (score_all_is_Some map_name (lower role) mw rw bw).
  unfold recommend; cbv zeta.
  destruct (score_all _ _ _ _ _ _ _); simpl; rewrite !is_Some_alt; tauto.
Qed.

Lemma candidates_elem heroes role_lc h :
  h ∈ candidates heroes role_lc ↔ h ∈ heroes ∧ role_lc ∈ roles h.
Proof. unfold candidates. rewrite list_elem_of_filter. tauto. Qed.

Lemma recommend_elem heroes role map_name top_n mw rw bw res h s :
  recommend pow heroes role map_name top_n mw rw bw = Some res →
  (h, s) ∈ res →
  h ∈ candidates heroes (lower role) ∧
  compute_score pow map_name (lower role) mw rw bw h = Some s.
Proof.
  intros (scored & Hsc & ->)%recommend_Some Hin.
  eapply score_all_elem; [exact Hsc|].
  rewrite <- (list_sort_perm key_ltb sort_key).
  eapply elem_of_prefix; [exact Hin|]. apply slice_to_prefix.
Qed.

End RecommendFacts.

(** ** Order of the ranking *)

Lemma key_eqb_true a b : key_eqb a b = true ↔ a.1 == b.1 ∧ a.2 = b.2.
Proof.
  unfold key_eqb. by rewrite andb_true_iff, Qeq_bool_iff, String.eqb_eq.
Qed.

Lemma same_rank_true t u :
  same_rank t u = true ↔ t.2 == u.2 ∧ lower (name t.1) = lower (name u.1).
Proof.
  unfold same_rank. rewrite key_eqb_true. simpl.
  split; intros [E ?]; (split; [lra|done]).
Qed.

Lemma same_rank_class t x y :
  same_rank t x = true → same_rank t y = true →
  key_ltb (sort_key y) (sort_key x) = false.
Proof.
  rewrite !same_rank_true. intros [E1 N1] [E2 N2].
  apply key_ltb_eqb, key_eqb_true. simpl. split; [lra|congruence].
Qed.

Lemma ranked_before_key t u :
  key_ltb (sort_key u) (sort_key t) = false ↔ ranked_before t u.
Proof.
  rewrite key_ltb_false. unfold key_le, ranked_before. simpl.
  split; (intros [H|[H L]]; [left; lra | right; split; [lra|done]]).
Qed.

Lemma StronglySorted_weaken {A} (R1 R2 : relation A) l :
  (∀ x y, R1 x y → R2 x y) → StronglySorted R1 l → StronglySorted R2 l.
Proof.
  intros HR. induction 1 as [|x l _ IH Hx]; constructor; [done|].
  eapply Forall_impl; [exact Hx|]. apply HR.
Qed.

Lemma list_sort_ranked scored :
  StronglySorted ranked_before (list_sort key_ltb sort_key scored).
Proof.
  eapply (StronglySorted_weaken (in_order key_ltb sort_key)).
  - intros t u. apply ranked_before_key.
  - apply list_sort_sorted.
    + apply key_ltb_asym.
    + intros a b c. unfold in_order. rewrite !key_ltb_false. apply key_le_trans.
Qed.

Lemma StronglySorted_lookup {A} (R : relation A) l i j x y :
  StronglySorted R l → (i < j)%nat → l !! i = Some x → l !! j = Some y → R x y.
Proof.
  intros Hs. revert i j. induction Hs as [|z l Hl IH Hz]; intros i j Hij Hi Hj.
  - by rewrite lookup_nil in Hi.
  - destruct j as [|j]; [lia|]. simpl in Hj. destruct i as [|i]; simpl in Hi.
    + injection Hi as ->. rewrite Forall_forall in Hz.
      apply Hz. by eapply list_elem_of_lookup_2.
    + apply (IH i j); [lia|done..].
Qed.

Lemma pair_sublist_lookup {A} (l : list A) i j x y :
  (i < j)%nat → l !! i = Some x → l !! j = Some y → [x; y] `sublist_of` l.
Proof.
  revert i j. induction l as [|z l IH]; intros i j Hij Hi Hj.
  - by rewrite lookup_nil in Hi.
  - destruct j as [|j]; [lia|]. simpl in Hj. destruct i as [|i]; simpl in Hi.
    + injection Hi as ->. apply sublist_skip.
      apply singleton_sublist_l. by eapply list_elem_of_lookup_2.
    + apply sublist_cons. apply (IH i j); [lia|done..].
Qed.

Lemma sublist_filter_mono {A} (P : A → Prop) `{∀ x, Decision (P x)} l1 l2 :
  l1 `sublist_of` l2 → filter P l1 `sublist_of` filter P l2.
Proof.
  induction 1 as [|x l1 l2 _ IH|x l1 l2 _ IH]; [constructor| |];
    rewrite ?filter_cons; destruct (decide (P x));
    by repeat constructor.
Qed.

Lemma prefix_sublist {A} (l1 l2 : list A) : l1 `prefix_of` l2 → l1 `sublist_of` l2.
Proof. intros [k ->]. by apply sublist_inserts_r. Qed.

(** ** Case of the query and of the stored data *)

Lemma compute_score_lower pow map_name map_name' role_lc mw rw bw h :
  lower map_name = lower map_name' →
  compute_score pow map_name role_lc mw rw bw h
  = compute_score pow map_name' role_lc mw rw bw h.
Proof.
  intros E.
  unfold compute_score, raw_map_score, map_role_bonus_multiplier.
  by rewrite E.
Qed.

Lemma recommend_lower pow heroes role role' map_name map_name' top_n mw rw bw :
  lower role = lower role' → lower map_name = lower map_name' →
  recommend pow heroes role map_name top_n mw rw bw
  = recommend pow heroes role' map_name' top_n mw rw bw.
Proof.
  intros Er Em. unfold recommend, score_all. rewrite Er.
  f_equal. apply mapM_ext. intros h.
  by rewrite (compute_score_lower pow map_name map_name').
Qed.

Lemma dict_comp_lookup {K K'} `{Countable K'} (f : K → K') items k v :
  dict_comp f items !! k = Some v → ∃ k0, (k0, v) ∈ items ∧ k = f k0.
Proof.
  unfold dict_comp.
  assert (∀ d : gmap K' Q,
    foldl (λ d kv, <[f kv.1 := kv.2]> d) d items !! k = Some v →
    d !! k = Some v ∨ ∃ k0, (k0, v) ∈ items ∧ k = f k0) as Hgen.
  { induction items as [|[k1 v1] items IH]; intros d; simpl; [by left|].
    intros [Hd|(k0 & Hin & ->)]%IH.
    - destruct (decide (f k1 = k)) as [<-|Hne].
      + rewrite lookup_insert_eq in Hd. injection Hd as ->.
        right. exists k1. split; [left|done].
      + rewrite lookup_insert_ne in Hd by done. by left.
    - right. exists k0. split; [by right|done]. }
  intros [Hd|?]%Hgen; [|done]. by rewrite lookup_empty in Hd.
Qed.

(** The last item of a key wins. *)
Lemma dict_comp_snoc {K K'} `{Countable K'} (f : K → K') items k v :
  dict_comp f (items ++ [(k, v)]) = <[f k := v]> (dict_comp f items).
Proof. unfold dict_comp. by rewrite foldl_app. Qed.

Lemma Hero_init_lowercase name rs ms rp mrb :
  let h := Hero_init name rs ms rp mrb in
  Forall lowercase (roles h) ∧
  (∀ k v, map_scores h !! k = Some v → lowercase k) ∧
  (∀ k v, role_proficiencies h !! k = Some v → lowercase k) ∧
  (∀ m r v, map_role_bonus h !! (m, r) = Some v → lowercase m ∧ lowercase r).
Proof.
  simpl. repeat split.
  - apply Forall_fmap, Forall_forall. intros r _. apply lower_idemp.
  - intros k v (k0 & _ & ->)%dict_comp_lookup. apply lower_idemp.
  - intros k v (k0 & _ & ->)%dict_comp_lookup. apply lower_idemp.
  - apply dict_comp_lookup in H as ([m0 r0] & _ & [= -> ->]). apply lower_idemp.
  - apply dict_comp_lookup in H as ([m0 r0] & _ & [= -> ->]). apply lower_idemp.
Qed.


(** ** Scores without bonus *)

Lemma Qred_one b : b == 1 → Qred b = 1.
Proof. intros E. by rewrite (Qred_complete _ _ E). Qed.

Lemma compute_score_base pow map_name role_lc mw rw bw h :
  compute_score pow map_name role_lc mw rw bw h
  = p ← pow (Qred (map_role_bonus_multiplier h map_name role_lc))
            (Qred (bw * 10));
    Some (py_round (base_score h map_name role_lc mw rw * p) 4).
Proof. reflexivity. Qed.

Lemma compute_score_bonus_one pow map_name role_lc mw rw bw h :
  pow_of_one pow →
  map_role_bonus_multiplier h map_name role_lc == 1 →
  compute_score pow map_name role_lc mw rw bw h
  = Some (py_round (base_score h map_name role_lc mw rw) 4).
Proof.
  intros Hpow Hb. rewrite compute_score_base, (Qred_one _ Hb), Hpow. simpl.
  f_equal. apply py_round_proper; [lra|done].
Qed.

Lemma base_score_bound h map_name role_lc mw rw :
  0 <= mw → 0 <= rw → role_proficiency h role_lc <= 1 →
  base_score h map_name role_lc mw rw <= mw + rw.
Proof.
  intros Hmw Hrw Hp. unfold base_score.
  destruct (map_norm_range h map_name) as [_ Hn].
  nra.
Qed.

Lemma pow_dec_of_one : pow_of_one pow_dec.
Proof. intros e. unfold pow_dec. destruct (Qeq_bool e 0); reflexivity. Qed.


Lemma same_rank_same_key t u :
  same_rank t u = true ↔ same_key key_ltb sort_key t u = true.
Proof.
  rewrite same_rank_true, same_key_true.
  rewrite (ranked_before_key u t), (ranked_before_key t u).
  unfold ranked_before. split.
  - intros [E N]. rewrite N.
    split; right; (split; [lra | apply string_leb_refl]).
  - intros [[H1|[E1 L1]] [H2|[E2 L2]]]; try lra.
    split; [lra | by apply String.leb_antisym].
Qed.

(** The ranking of a list of scored entries is the only arrangement of it
    that is in ranking order and keeps entries of the same rank in their
    order. *)
Lemma ranking_unique scored l' :
  StronglySorted ranked_before l' →
  (∀ t, filter (λ u, same_rank t u = true) l'
        = filter (λ u, same_rank t u = true) scored) →
  l' = list_sort key_ltb sort_key scored.
Proof.
  intros Hs Hf. apply list_sort_unique.
  - apply key_ltb_asym.
  - intros a b c. unfold in_order. rewrite !key_ltb_false. apply key_le_trans.
  - eapply StronglySorted_weaken; [|exact Hs].
    intros x y. apply ranked_before_key.
  - intros t.
    rewrite <- (list_filter_iff (λ u, same_rank t u = true)
                  (λ u, same_key key_ltb sort_key t u = true) l')
      by (intros u; apply same_rank_same_key).
    rewrite <- (list_filter_iff (λ u, same_rank t u = true)
                  (λ u, same_key key_ltb sort_key t u = true) scored)
      by (intros u; apply same_rank_same_key).
    apply Hf.
Qed.

(** * Binary64 rounding *)

Section Rounding.
Import F64.


Lemma pow2_pos k : 0 < pow2 k.
Proof. by apply Qpower_0_lt. Qed.

Lemma pow2_add a b : pow2 (a + b) == pow2 a * pow2 b.
Proof. by apply Qpower_plus. Qed.

Lemma pow2_le a b : (a <= b)%Z → pow2 a <= pow2 b.
Proof. intros H. by apply Qpower_le_compat_l. Qed.

Lemma pow2_lt a b : (a < b)%Z → pow2 a < pow2 b.
Proof. intros H. by apply Qpower_lt_compat_l. Qed.

Lemma pow2_lt_inv a b : pow2 a < pow2 b → (a < b)%Z.
Proof. intros H. by apply (Qpower_lt_compat_l_inv 2). Qed.

Lemma pow2_Z k : (0 <= k)%Z → pow2 k == inject_Z (2 ^ k).
Proof. intros H. unfold pow2. by rewrite Zpower_Qpower. Qed.

Lemma pow2_sub a b : pow2 (a - b) == pow2 a / pow2 b.
Proof.
  pose proof (pow2_pos b). pose proof (pow2_add (a - b) b) as E.
  replace (a - b + b)%Z with a in E by lia. rewrite E. field. lra.
Qed.

Lemma ilog2_spec x : 0 < x → pow2 (ilog2 x) <= x ∧ x < pow2 (ilog2 x + 1).
Proof.
  intros Hx. unfold ilog2.
  destruct x as [n d]. unfold Qlt in Hx. simpl in Hx. simpl Qnum. simpl Qden.
  assert (0 < n)%Z as Hn by lia.
  pose proof (Z.log2_spec n Hn) as [Hn1 Hn2].
  pose proof (Z.log2_spec (Z.pos d) ltac:(lia)) as [Hd1 Hd2].
  pose proof (Z.log2_nonneg n). pose proof (Z.log2_nonneg (Z.pos d)).
  set (a := Z.log2 n) in *. set (b := Z.log2 (Z.pos d)) in *.
  assert (n # d == inject_Z n / inject_Z (Z.pos d)) as En by (by rewrite Qmake_Qdiv).
  assert (0 < inject_Z (Z.pos d)) as Hdpos by (rewrite <- (Zlt_Qlt 0); lia).
  assert (pow2 a <= inject_Z n) as Qn1 by (rewrite pow2_Z, <- Zle_Qle; lia).
  assert (inject_Z n < pow2 (a + 1)) as Qn2.
  { rewrite pow2_Z, <- Zlt_Qlt by lia. by rewrite <- Z.add_1_r in Hn2. }
  assert (pow2 b <= inject_Z (Z.pos d)) as Qd1 by (rewrite pow2_Z, <- Zle_Qle; lia).
  assert (inject_Z (Z.pos d) < pow2 (b + 1)) as Qd2.
  { rewrite pow2_Z, <- Zlt_Qlt by lia. by rewrite <- Z.add_1_r in Hd2. }
  pose proof (pow2_pos b) as Pb. pose proof (pow2_pos (b + 1)) as Pb1.
  assert (n # d < pow2 (a - b + 1)) as Hup.
  { rewrite En. replace (a - b + 1)%Z with (a + 1 - b)%Z by lia.
    rewrite pow2_sub. apply Qlt_shift_div_r; [done|].
    assert (pow2 (a + 1) / pow2 b * inject_Z (Z.pos d)
            == pow2 (a + 1) * (inject_Z (Z.pos d) / pow2 b)) as -> by (field; lra).
    assert (1 <= inject_Z (Z.pos d) / pow2 b) as H1.
    { apply Qle_shift_div_l; [done|]. lra. }
    pose proof (pow2_pos (a + 1)). nra. }
  assert (pow2 (a - b - 1) <= n # d) as Hlo.
  { rewrite En. replace (a - b - 1)%Z with (a - (b + 1))%Z by lia.
    rewrite pow2_sub. apply Qle_shift_div_l; [done|].
    assert (pow2 a / pow2 (b + 1) * inject_Z (Z.pos d)
            == pow2 a * (inject_Z (Z.pos d) / pow2 (b + 1))) as -> by (field; lra).
    assert (inject_Z (Z.pos d) / pow2 (b + 1) <= 1) as H1.
    { apply Qle_shift_div_r; [done|]. lra. }
    pose proof (pow2_pos a). nra. }
  destruct (Qle_bool (pow2 (a - b)) (n # d)) eqn:E.
  - apply Qle_bool_iff in E. by split.
  - split; [done|]. replace (a - b - 1 + 1)%Z with (a - b)%Z by lia.
    apply Qnot_le_lt. intros Hle. apply Qle_bool_iff in Hle. congruence.
Qed.

Lemma ilog2_unique x e : pow2 e <= x → x < pow2 (e + 1) → ilog2 x = e.
Proof.
  intros H1 H2. pose proof (pow2_pos e).
  destruct (ilog2_spec x) as [H3 H4]; [lra|].
  assert (pow2 e < pow2 (ilog2 x + 1)) as Ha by lra.
  assert (pow2 (ilog2 x) < pow2 (e + 1)) as Hb by lra.
  apply pow2_lt_inv in Ha, Hb. lia.
Qed.

Lemma ilog2_mono x y : 0 < x → x <= y → (ilog2 x <= ilog2 y)%Z.
Proof.
  intros Hx Hxy.
  destruct (ilog2_spec x Hx) as [H1 _].
  destruct (ilog2_spec y) as [_ H2]; [lra|].
  assert (pow2 (ilog2 x) < pow2 (ilog2 y + 1)) as H by lra.
  apply pow2_lt_inv in H. lia.
Qed.

Lemma round_half_even_Z n : round_half_even (inject_Z n) = n.
Proof. apply round_half_even_inside; lra. Qed.

Lemma round_half_even_le_Z q n :
  q <= inject_Z n → (round_half_even q <= n)%Z.
Proof.
  intros H. rewrite <- (round_half_even_Z n). by apply round_half_even_mono.
Qed.

Lemma round_half_even_ge_Z q n :
  inject_Z n <= q → (n <= round_half_even q)%Z.
Proof.
  intros H. rewrite <- (round_half_even_Z n) at 1. by apply round_half_even_mono.
Qed.

Lemma rnd_abs_eq x :
  rnd_abs x == inject_Z (round_half_even (x / pow2 (fexp x))) * pow2 (fexp x).
Proof. unfold rnd_abs. cbv zeta. apply Qred_correct. Qed.

Lemma rnd_abs_Qred x : Qred (rnd_abs x) = rnd_abs x.
Proof. unfold rnd_abs. cbv zeta. apply Qred_complete, Qred_correct. Qed.

Lemma ilog2_proper x y : 0 < x → x == y → ilog2 x = ilog2 y.
Proof.
  intros Hx E. destruct (ilog2_spec x Hx) as [H1 H2].
  symmetry. apply ilog2_unique; by rewrite <- E.
Qed.

Lemma rnd_abs_zero x : x == 0 → rnd_abs x = 0.
Proof.
  intros E. unfold rnd_abs. cbv zeta.
  assert (round_half_even (x / pow2 (fexp x)) = 0%Z) as ->.
  { rewrite <- (round_half_even_Z 0). apply round_half_even_proper.
    unfold Qdiv. rewrite (Qmult_comp x 0 E _ _ (Qeq_refl _)).
    by rewrite Qmult_0_l. }
  rewrite <- (Qred_complete 0 (inject_Z 0 * pow2 (fexp x))); [done|].
  by rewrite Qmult_0_l.
Qed.

Lemma rnd_abs_proper x y : 0 <= x → x == y → rnd_abs x = rnd_abs y.
Proof.
  intros Hx E. destruct (Qeq_dec x 0) as [E0|N0].
  - rewrite (rnd_abs_zero x E0). symmetry. apply rnd_abs_zero. by rewrite <- E.
  - assert (0 < x) as Hpos by (apply Qle_lteq in Hx as [?|E0]; [done|by destruct N0]).
    unfold rnd_abs, fexp. cbv zeta. rewrite (ilog2_proper x y Hpos E).
    apply Qred_complete. by rewrite E.
Qed.

Lemma rnd_abs_nonneg x : 0 <= x → 0 <= rnd_abs x.
Proof.
  intros Hx. rewrite rnd_abs_eq. pose proof (pow2_pos (fexp x)) as Hu.
  apply Qmult_le_0_compat; [|lra].
  change 0 with (inject_Z 0). rewrite <- Zle_Qle.
  apply round_half_even_ge_Z. apply Qle_shift_div_l; [done|].
  change (inject_Z 0) with 0. lra.
Qed.

Lemma rnd_abs_le_pow2 x g :
  x <= pow2 g → (fexp x <= g)%Z → rnd_abs x <= pow2 g.
Proof.
  intros Hx Hg. rewrite rnd_abs_eq. pose proof (pow2_pos (fexp x)) as Hu.
  assert (pow2 g == inject_Z (2 ^ (g - fexp x)) * pow2 (fexp x)) as ->.
  { rewrite <- pow2_Z by lia. rewrite <- pow2_add. by replace (g - fexp x + fexp x)%Z with g by lia. }
  apply Qmult_le_compat_r; [|lra]. rewrite <- Zle_Qle.
  apply round_half_even_le_Z. apply Qle_shift_div_r; [done|].
  rewrite <- pow2_Z by lia. rewrite <- pow2_add.
  by replace (g - fexp x + fexp x)%Z with g by lia.
Qed.

Lemma rnd_abs_ge_pow2 x g :
  pow2 g <= x → (fexp x <= g)%Z → pow2 g <= rnd_abs x.
Proof.
  intros Hx Hg. rewrite rnd_abs_eq. pose proof (pow2_pos (fexp x)) as Hu.
  assert (pow2 g == inject_Z (2 ^ (g - fexp x)) * pow2 (fexp x)) as E.
  { rewrite <- pow2_Z by lia. rewrite <- pow2_add. by replace (g - fexp x + fexp x)%Z with g by lia. }
  rewrite E at 1.
  apply Qmult_le_compat_r; [|lra]. rewrite <- Zle_Qle.
  apply round_half_even_ge_Z. apply Qle_shift_div_l; [done|]. by rewrite <- E.
Qed.

Lemma rnd_abs_mono x y : 0 <= x → x <= y → rnd_abs x <= rnd_abs y.
Proof.
  intros Hx Hxy. destruct (Qeq_dec x 0) as [E0|N0].
  { rewrite (rnd_abs_zero x E0). apply rnd_abs_nonneg. lra. }
  assert (0 < x) as Hpos by (apply Qle_lteq in Hx as [?|E0]; [done|by destruct N0]).
  pose proof (ilog2_mono x y Hpos Hxy) as He.
  destruct (ilog2_spec x Hpos) as [_ Hx2].
  destruct (ilog2_spec y) as [Hy1 _]; [lra|].
  destruct (decide (fexp x = fexp y)) as [Ef|Nf].
  - rewrite !rnd_abs_eq, Ef. pose proof (pow2_pos (fexp y)) as Hu.
    apply Qmult_le_compat_r; [|lra]. rewrite <- Zle_Qle.
    apply round_half_even_mono. unfold Qdiv. apply Qmult_le_compat_r; [done|].
    apply Qinv_le_0_compat. lra.
  - unfold fexp in Nf.
    assert (ilog2 x < ilog2 y)%Z as Hlt by lia.
    apply (Qle_trans _ (pow2 (ilog2 y))).
    + apply rnd_abs_le_pow2; [|unfold fexp; lia].
      pose proof (pow2_le (ilog2 x + 1) (ilog2 y) ltac:(lia)). lra.
    + apply rnd_abs_ge_pow2; [done|unfold fexp; lia].
Qed.

(** A multiple of [2 ** f] with at most 53 digits is kept as it is. *)
Lemma rnd_abs_exact m f :
  (-1074 <= f)%Z → (0 < m <= 2 ^ 53)%Z →
  rnd_abs (inject_Z m * pow2 f) == inject_Z m * pow2 f.
Proof.
  intros Hf [Hm1 Hm2].
  pose proof (Z.log2_spec m Hm1) as [Ha1 Ha2].
  pose proof (Z.log2_nonneg m) as Ha0. set (a := Z.log2 m) in *.
  assert (a <= 53)%Z as Ha53.
  { destruct (Z_le_gt_dec a 53); [done|].
    pose proof (Z.pow_le_mono_r 2 54 a ltac:(lia) ltac:(lia)). lia. }
  pose proof (pow2_pos f) as Hu.
  set (z := inject_Z m * pow2 f).
  assert (ilog2 z = (a + f)%Z) as Ee.
  { apply ilog2_unique; unfold z.
    - assert (pow2 (a + f) == inject_Z (2 ^ a) * pow2 f) as ->.
      { rewrite pow2_add. by rewrite (pow2_Z a Ha0). }
      apply Qmult_le_compat_r; [|lra]. by rewrite <- Zle_Qle.
    - assert (pow2 (a + f + 1) == inject_Z (2 ^ (a + 1)) * pow2 f) as ->.
      { replace (a + f + 1)%Z with (a + 1 + f)%Z by lia.
        rewrite pow2_add. by rewrite (pow2_Z (a + 1)) by lia. }
      apply Qmult_lt_compat_r; [done|].
      rewrite <- Zlt_Qlt. by rewrite <- Z.add_1_r in Ha2. }
  rewrite rnd_abs_eq. fold z. unfold fexp. rewrite Ee.
  set (f' := Z.max (a + f - 52) (-1074)).
  pose proof (pow2_pos f') as Hu'.
  assert (∃ k, z / pow2 f' == inject_Z k) as [k Hk].
  { destruct (Z_le_gt_dec a 52) as [Hle|Hgt].
    - exists (m * 2 ^ (f - f'))%Z. unfold z.
      rewrite inject_Z_mult, <- pow2_Z by lia. rewrite pow2_sub. field. lra.
    - assert (a = 53)%Z as Ea by lia. rewrite Ea in Ha1.
      assert (m = 2 ^ 53)%Z as -> by lia.
      exists (2 ^ 52)%Z. unfold z. subst f'.
      replace (Z.max (a + f - 52) (-1074)) with (f + 1)%Z by lia.
      rewrite pow2_add. change (pow2 1) with 2.
      change (inject_Z (2 ^ 53)) with (2 * inject_Z (2 ^ 52)). field. lra. }
  rewrite (round_half_even_proper _ _ Hk), round_half_even_Z, <- Hk.
  field. lra.
Qed.

(** What [rnd_abs] returns is such a multiple. *)
Lemma rnd_abs_shape x :
  0 < x →
  ∃ m, rnd_abs x == inject_Z m * pow2 (fexp x) ∧ (0 <= m <= 2 ^ 53)%Z.
Proof.
  intros Hx. exists (round_half_even (x / pow2 (fexp x))).
  split; [apply rnd_abs_eq|].
  pose proof (pow2_pos (fexp x)) as Hu.
  destruct (ilog2_spec x Hx) as [_ H2]. split.
  - apply round_half_even_ge_Z. apply Qle_shift_div_l; [done|].
    change (inject_Z 0) with 0. lra.
  - apply round_half_even_le_Z. apply Qle_shift_div_r; [done|].
    rewrite <- pow2_Z, <- pow2_add by lia.
    pose proof (pow2_le (ilog2 x + 1) (53 + fexp x) ltac:(unfold fexp; lia)).
    lra.
Qed.

Lemma rnd_abs_idem x : 0 <= x → rnd_abs (rnd_abs x) = rnd_abs x.
Proof.
  intros Hx. destruct (Qeq_dec x 0) as [E0|N0].
  { by rewrite !(rnd_abs_zero x E0). }
  assert (0 < x) as Hpos by (apply Qle_lteq in Hx as [?|E0]; [done|by destruct N0]).
  destruct (rnd_abs_shape x Hpos) as (m & Hm & Hm0 & Hm53).
  assert (rnd_abs (rnd_abs x) == rnd_abs x) as E.
  { destruct (decide (m = 0%Z)) as [->|Nm].
    - rewrite Qmult_0_l in Hm. by rewrite (rnd_abs_zero _ Hm).
    - rewrite (rnd_abs_proper _ _ (rnd_abs_nonneg x Hx) Hm), Hm.
      apply rnd_abs_exact; [unfold fexp|]; lia. }
  pose proof (Qred_complete _ _ E) as E'. by rewrite !rnd_abs_Qred in E'.
Qed.

(** ** Rounding with a sign *)

Lemma rnd_nonneg x : 0 <= x → rnd x = rnd_abs x.
Proof.
  intros Hx. unfold rnd. destruct (Qltb x 0) eqn:E; [|done].
  apply Qltb_lt in E. lra.
Qed.

Lemma rnd_neg x : x < 0 → rnd x = - rnd_abs (- x).
Proof. intros Hx. unfold rnd. by rewrite (proj2 (Qltb_lt x 0) Hx). Qed.

Lemma rnd_mono x y : x <= y → rnd x <= rnd y.
Proof.
  intros Hxy. destruct (Qlt_le_dec x 0) as [Hx|Hx], (Qlt_le_dec y 0) as [Hy|Hy].
  - rewrite (rnd_neg x Hx), (rnd_neg y Hy).
    pose proof (rnd_abs_mono (- y) (- x) ltac:(lra) ltac:(lra)). lra.
  - rewrite (rnd_neg x Hx), (rnd_nonneg y Hy).
    pose proof (rnd_abs_nonneg (- x) ltac:(lra)).
    pose proof (rnd_abs_nonneg y Hy). lra.
  - lra.
  - rewrite (rnd_nonneg x Hx), (rnd_nonneg y Hy). by apply rnd_abs_mono.
Qed.

Lemma rnd_proper x y : x == y → rnd x = rnd y.
Proof.
  intros E. destruct (Qlt_le_dec x 0) as [Hx|Hx].
  - rewrite (rnd_neg x Hx), (rnd_neg y) by lra.
    f_equal. apply rnd_abs_proper; [lra|by rewrite E].
  - rewrite (rnd_nonneg x Hx), (rnd_nonneg y) by lra. by apply rnd_abs_proper.
Qed.

Lemma rnd_idem x : rnd (rnd x) == rnd x.
Proof.
  destruct (Qlt_le_dec x 0) as [Hx|Hx].
  - rewrite (rnd_neg x Hx).
    pose proof (rnd_abs_nonneg (- x) ltac:(lra)) as H0.
    destruct (Qeq_dec (rnd_abs (- x)) 0) as [E0|N0].
    + rewrite (rnd_proper (- rnd_abs (- x)) 0) by lra. by rewrite E0.
    + rewrite rnd_neg by lra.
      rewrite (rnd_abs_proper (- - rnd_abs (- x)) (rnd_abs (- x))) by lra.
      rewrite rnd_abs_idem by lra. lra.
  - rewrite (rnd_nonneg x Hx), rnd_nonneg by (by apply rnd_abs_nonneg).
    by rewrite rnd_abs_idem.
Qed.
End Rounding.

(** * Floats *)

Section Floats.
Import F64.

Lemma rnd_Qred x : Qred (rnd x) = rnd x.
Proof.
  unfold rnd. destruct (Qltb x 0); [|apply rnd_abs_Qred].
  by rewrite Qred_opp, rnd_abs_Qred.
Qed.

Lemma rnd_fixed x : rnd (rnd x) = rnd x.
Proof.
  pose proof (Qred_complete _ _ (rnd_idem x)) as E. by rewrite !rnd_Qred in E.
Qed.

Lemma rnd_0 : rnd 0 = 0.
Proof. by vm_compute. Qed.

Lemma rnd_1 : rnd 1 = 1.
Proof. by vm_compute. Qed.

Lemma of_Q_Fin x z :
  of_Q x = Fin z ↔ z = rnd x ∧ Qabs (rnd x) < pow2 1024.
Proof.
  unfold of_Q. cbv zeta.
  destruct (Qle_bool (pow2 1024) (Qabs (rnd x))) eqn:E.
  - apply Qle_bool_iff in E. split; [done|]. intros [_ H]. lra.
  - split.
    + intros [= <-]. split; [done|]. apply Qnot_le_lt. intros H.
      apply Qle_bool_iff in H. congruence.
    + by intros [-> _].
Qed.

Lemma of_Q_proper x y : x == y → of_Q x = of_Q y.
Proof. intros E. unfold of_Q. by rewrite (rnd_proper x y E). Qed.

Lemma of_Q_idem x z : of_Q x = Fin z → of_Q z = Fin z.
Proof.
  intros [-> H]%of_Q_Fin. apply of_Q_Fin. by rewrite rnd_fixed.
Qed.

Lemma of_Q_normal x z : of_Q x = Fin z → Qred z = z.
Proof. intros [-> _]%of_Q_Fin. apply rnd_Qred. Qed.

Lemma of_Q_not_NaN x : of_Q x ≠ NaN.
Proof. unfold of_Q. cbv zeta. by destruct (Qle_bool _ _). Qed.

Lemma finite_inv x : finite x → ∃ a, x = Fin a ∧ rnd a = a ∧ Qabs a < pow2 1024.
Proof.
  destruct x as [a| |]; simpl; [|done..].
  intros [E H]%of_Q_Fin. exists a. rewrite <- E in H. by rewrite <- E.
Qed.

Lemma leb_Fin a b : leb (Fin a) (Fin b) = true ↔ a <= b.
Proof.
  unfold leb. simpl. rewrite orb_true_iff, Qltb_lt, Qeq_bool_iff.
  rewrite Qle_lteq. tauto.
Qed.

Lemma leb_Inf x : x ≠ NaN → leb x (Inf false) = true.
Proof. by destruct x as [a|[]|]. Qed.

Lemma leb_NInf x : x ≠ NaN → leb (Inf true) x = true.
Proof. by destruct x as [a|[]|]. Qed.

Lemma of_Q_mono x y : x <= y → leb (of_Q x) (of_Q y) = true.
Proof.
  intros Hxy. pose proof (rnd_mono x y Hxy) as Hr.
  pose proof (pow2_pos 1024) as Hp.
  unfold of_Q. cbv zeta.
  destruct (Qle_bool (pow2 1024) (Qabs (rnd x))) eqn:Ex,
    (Qle_bool (pow2 1024) (Qabs (rnd y))) eqn:Ey.
  all: try (apply Qle_bool_iff in Ex); try (apply Qle_bool_iff in Ey).
  all: try (assert (Qabs (rnd x) < pow2 1024) as Ex'
              by (apply Qnot_le_lt; intros H; apply Qle_bool_iff in H; congruence)).
  all: try (assert (Qabs (rnd y) < pow2 1024) as Ey'
              by (apply Qnot_le_lt; intros H; apply Qle_bool_iff in H; congruence)).
  all: revert Ex Ey; try revert Ex'; try revert Ey'.
  all: destruct (Qlt_le_dec (rnd x) 0) as [Sx|Sx];
    [rewrite (Qabs_neg (rnd x)) by lra|rewrite (Qabs_pos (rnd x)) by lra].
  all: destruct (Qlt_le_dec (rnd y) 0) as [Sy|Sy];
    [rewrite (Qabs_neg (rnd y)) by lra|rewrite (Qabs_pos (rnd y)) by lra].
  all: intros.
  all: try (rewrite (proj2 (Qltb_lt (rnd x) 0)) by done).
  all: try (rewrite (proj2 (Qltb_lt (rnd y) 0)) by done).
  all: try (rewrite (proj2 (Qltb_ge (rnd x) 0)) by done).
  all: try (rewrite (proj2 (Qltb_ge (rnd y) 0)) by done).
  all: try done; try lra.
  all: by apply leb_Fin.
Qed.

Lemma py_round4_mono_float x y :
  leb x y = true → leb (F64.py_round x 4) (F64.py_round y 4) = true.
Proof.
  destruct x as [a|[]|], y as [b|[]|]; simpl; try done.
  - intros H%leb_Fin. by apply of_Q_mono, py_round4_mono.
  - intros _. apply leb_Inf, of_Q_not_NaN.
  - intros _. apply leb_NInf, of_Q_not_NaN.
Qed.

Lemma mul_one x : finite x ∨ x = Inf false → mul x (Fin 1) = x.
Proof.
  intros [Hx| ->]; [|done]. destruct x as [a| |]; simpl in *; [|done..].
  rewrite (of_Q_proper (a * 1) a) by lra. done.
Qed.
End Floats.

(** * The scorer on floats *)

Section FloatScorer.
Import F64.
Variable pow : float → float → option float.

Lemma of_Q_10 : of_Q 10 = Fin 10.
Proof. by vm_compute. Qed.

Lemma of_Q_0 : of_Q 0 = Fin 0.
Proof. by vm_compute. Qed.

Lemma of_Q_1 : of_Q 1 = Fin 1.
Proof. by vm_compute. Qed.

(** The tenth of a stored number is a float in normal form or an infinity. *)
Lemma div_10 x :
  ∃ q, div (of_Q x) (of_Q 10) = Some q ∧
       ((∃ y, q = of_Q y) ∨ ∃ s, q = Inf s).
Proof.
  rewrite of_Q_10. unfold div.
  change (Qeq_bool 10 0) with false. cbv iota.
  destruct (of_Q x) as [a|s|] eqn:E; [| |by destruct (of_Q_not_NaN x)].
  - exists (of_Q (a / 10)). eauto.
  - exists (Inf (xorb s (Qltb 10 0))). eauto.
Qed.

Lemma clamp_max_min q :
  ((∃ y, q = of_Q y) ∨ ∃ s, q = Inf s) →
  py_max (of_Q 0) (py_min (of_Q 1) q) = clamp q (of_Q 0) (of_Q 1).
Proof.
  rewrite of_Q_0, of_Q_1. intros [[y ->]|[s ->]]; [|by destruct s].
  destruct (of_Q y) as [a|s|] eqn:E;
    [|by destruct s|by destruct (of_Q_not_NaN y)].
  apply of_Q_normal in E. unfold py_max, py_min, clamp. simpl.
  destruct (Qltb a 1) eqn:E1; simpl.
  - destruct (Qltb 0 a) eqn:E0.
    + apply Qltb_lt in E0, E1.
      rewrite (proj2 (Qltb_ge a 0)), (proj2 (Qltb_ge 1 a)) by lra. done.
    + apply Qltb_ge in E0. destruct (Qltb a 0) eqn:E2; [done|].
      apply Qltb_ge in E2. apply Qltb_lt in E1.
      rewrite (proj2 (Qltb_ge 1 a)) by lra.
      f_equal. rewrite <- E. symmetry. apply (Qred_complete a 0). lra.
  - apply Qltb_ge in E1. rewrite (proj2 (Qltb_ge a 0)) by lra.
    destruct (Qltb 1 a) eqn:E2; [done|]. apply Qltb_ge in E2.
    f_equal. rewrite <- E. symmetry. apply (Qred_complete a 1). lra.
Qed.

(** The code's score is the score of the specification. *)
Lemma compute_score_spec_float h role context mw rw bw :
  compute_score pow context (lower role) mw rw bw h
  = spec_score pow h role context mw rw bw.
Proof.
  unfold compute_score, spec_score, raw_map_score, role_proficiency,
    map_role_bonus_multiplier.
  rewrite lower_idemp.
  destruct (div_10 (default 0 (map_scores h !! lower context)))
    as (q & -> & Hq).
  simpl. by rewrite (clamp_max_min q Hq).
Qed.

Lemma score_all_elem_float map_name role_lc mw rw bw cands scored h s :
  score_all pow map_name role_lc mw rw bw cands = Some scored →
  (h, s) ∈ scored →
  h ∈ cands ∧ compute_score pow map_name role_lc mw rw bw h = Some s.
Proof.
  unfold score_all. rewrite mapM_Some. intros HF Hin.
  apply list_elem_of_lookup_1 in Hin as [i Hi].
  destruct (Forall2_lookup_r _ _ _ _ _ HF Hi) as (h' & Hh' & E).
  destruct (compute_score _ _ _ _ _ _ h') as [s'|] eqn:Es; [|done].
  simpl in E. injection E as <- <-.
  split; [by eapply list_elem_of_lookup_2|done].
Qed.

Lemma recommend_elem_float heroes role map_name top_n mw rw bw res h s :
  recommend pow heroes role map_name top_n mw rw bw = Some res →
  (h, s) ∈ res →
  h ∈ candidates heroes (lower role) ∧
  compute_score pow map_name (lower role) mw rw bw h = Some s.
Proof.
  unfold recommend. cbv zeta.
  destruct (score_all _ _ _ _ _ _ _) as [scored|] eqn:Esc; [|done].
  simpl. intros [= <-] Hin.
  eapply score_all_elem_float; [exact Esc|].
  rewrite <- (list_sort_perm key_ltb sort_key).
  eapply elem_of_prefix; [exact Hin|]. apply slice_to_prefix.
Qed.

(** The map score that the scorer uses lies between 0 and 1. *)
Lemma map_norm_float x :
  ∃ q c, div (of_Q x) (of_Q 10) = Some q ∧
         py_max (of_Q 0) (py_min (of_Q 1) q) = Fin c ∧ 0 <= c ∧ c <= 1.
Proof.
  destruct (div_10 x) as (q & Hq & Hq'). exists q.
  rewrite of_Q_0, of_Q_1. unfold py_max, py_min.
  destruct Hq' as [[y ->]|[s ->]].
  - destruct (of_Q y) as [a|s|] eqn:E; [| |by destruct (of_Q_not_NaN y)].
    + simpl. destruct (Qltb a 1) eqn:E1; simpl.
      * destruct (Qltb 0 a) eqn:E0; [|exists 0; split; [done|split; [done|lra]]].
        apply Qltb_lt in E0, E1. exists a. split; [done|]. split; [done|lra].
      * exists 1. split; [done|]. split; [done|lra].
    + destruct s; simpl.
      * exists 0. split; [done|]. split; [done|lra].
      * exists 1. split; [done|]. split; [done|lra].
  - destruct s; simpl.
    + exists 0. split; [done|]. split; [done|lra].
    + exists 1. split; [done|]. split; [done|lra].
Qed.

(** The product of a float between 0 and 1 and a finite weight that is
    not negative is finite and at most the weight. *)
Lemma mul_weight c w :
  0 <= c → c <= 1 → finite w → leb (Fin 0) w = true →
  ∃ z, mul (Fin c) w = Fin z ∧ 0 <= z ∧ ∃ a, w = Fin a ∧ z <= a.
Proof.
  intros Hc0 Hc1 (a & -> & Ha & Hfin)%finite_inv Hw%leb_Fin.
  simpl. exists (rnd (c * a)).
  assert (0 <= rnd (c * a)) as H0.
  { rewrite <- rnd_0 at 1. apply rnd_mono. nra. }
  assert (rnd (c * a) <= a) as H1.
  { rewrite <- Ha at 2. apply rnd_mono. nra. }
  split; [|eauto]. apply of_Q_Fin. split; [done|].
  rewrite Qabs_pos by done. rewrite Qabs_pos in Hfin by done. lra.
Qed.

Lemma add_mono a b a' b' :
  a <= a' → b <= b' →
  leb (add (Fin a) (Fin b)) (add (Fin a') (Fin b')) = true.
Proof. intros Ha Hb. simpl. apply of_Q_mono. lra. Qed.

Lemma of_Q_nonneg x : 0 <= x → finite (of_Q x) ∨ of_Q x = Inf false.
Proof.
  intros Hx. assert (0 <= rnd x) as H0.
  { rewrite <- rnd_0. by apply rnd_mono. }
  unfold of_Q. cbv zeta. destruct (Qle_bool _ _) eqn:E.
  - right. by rewrite (proj2 (Qltb_ge (rnd x) 0)).
  - left. simpl. apply of_Q_Fin. rewrite rnd_fixed. split; [done|].
    apply Qnot_le_lt. intros H. apply Qle_bool_iff in H. congruence.
Qed.

Lemma compute_score_unfold map_name role_lc mw rw bw h :
  compute_score pow map_name role_lc mw rw bw h
  = match div (of_Q (raw_map_score h map_name)) (of_Q 10) with
    | Some q =>
        match pow (of_Q (map_role_bonus_multiplier h map_name role_lc))
                (mul bw (of_Q 10)) with
        | Some p =>
            Some (F64.py_round
                    (mul (add (mul (py_max (of_Q 0) (py_min (of_Q 1) q)) mw)
                              (mul (of_Q (role_proficiency h role_lc)) rw))
                         p) 4)
        | None => None
        end
    | None => None
    end.
Proof. unfold compute_score. by destruct (div _ _). Qed.

(** With a bonus of 1.0, a proficiency between 0 and 1 and finite weights
    that are not negative, the score is the rounded base, which is at most
    the rounded sum of the weights. *)
Lemma compute_score_bound map_name role_lc mw rw bw h s :
  pow_of_one pow →
  finite mw → finite rw → leb (Fin 0) mw = true → leb (Fin 0) rw = true →
  of_Q (map_role_bonus_multiplier h map_name role_lc) = Fin 1 →
  0 <= role_proficiency h role_lc → role_proficiency h role_lc <= 1 →
  compute_score pow map_name role_lc mw rw bw h = Some s →
  leb s (F64.py_round (add mw rw) 4) = true.
Proof.
  intros Hpow Hmw Hrw Hmw0 Hrw0 Hb Hp0 Hp1. rewrite compute_score_unfold.
  destruct (map_norm_float (raw_map_score h map_name))
    as (q & c & Hq & Hn & Hc0 & Hc1).
  rewrite Hq. cbv beta iota. rewrite Hn, Hb, Hpow.
  intros Hs. apply (inj Some) in Hs. subst s.
  destruct (mul_weight c mw Hc0 Hc1 Hmw Hmw0) as (x & -> & Hx0 & a & -> & Hxa).
  assert (∃ p, of_Q (role_proficiency h role_lc) = Fin p ∧ 0 <= p ∧ p <= 1)
    as (p & -> & Hp0' & Hp1').
  { exists (rnd (role_proficiency h role_lc)).
    assert (0 <= rnd (role_proficiency h role_lc)) by (rewrite <- rnd_0; by apply rnd_mono).
    assert (rnd (role_proficiency h role_lc) <= 1) by (rewrite <- rnd_1; by apply rnd_mono).
    split; [|done]. apply of_Q_Fin. split; [done|].
    rewrite Qabs_pos by done.
    pose proof (pow2_le 0 1024 ltac:(lia)). change (pow2 0) with 1 in *.
    pose proof (pow2_lt 0 1024 ltac:(lia)). change (pow2 0) with 1 in *. lra. }
  destruct (mul_weight p rw Hp0' Hp1' Hrw Hrw0) as (y & -> & Hy0 & b & -> & Hyb).
  rewrite mul_one by (apply of_Q_nonneg; lra).
  apply py_round4_mono_float. by apply add_mono.
Qed.
End FloatScorer.

Lemma pow_exact_of_one : F64.pow_of_one F64.pow_exact.
Proof. intros e. unfold F64.pow_exact. by destruct (F64.eqb e (F64.Fin 0)). Qed.

(** The two scorers differ where the exact base is a tie: [hero_tie] scores
    0.8672 on exact numbers and 0.8673 on floats, as in Python. *)
Example score_of_a_tie :
  compute_score pow_dec "arena" "dps" 0.6 0.35 0.05 hero_tie = Some 0.8672 ∧
  F64.compute_score F64.pow_exact "arena" "dps"
    (F64.of_Q 0.6) (F64.of_Q 0.35) (F64.of_Q 0.05) hero_tie
  = Some (F64.of_Q 0.8673).
Proof. split; vm_compute; reflexivity. Qed.

(** * The claims of the specification *)

(** C1. The score that [recommend] computes for a hero is the score of the
    specification, [round(base * bonus ** (bonusWeight * 10), 4)] with
    [base = clamp(rawContextScore / 10, 0, 1) * mapWeight
            + roleProficiency * roleWeight], the context score and the
    proficiency looked up under the lowercased context and role with
    default 0, and the bonus under the lowercased pair with default 1.0,
    every operation being the one of binary64 floats: [F64.compute_score],
    as [recommend] calls it, agrees with [F64.spec_score] on every hero and
    for all weights, and every entry of the result carries that score. *)
Theorem recommend_score_formula pow heroes role context top_n
    mapWeight roleWeight bonusWeight :
  (∀ h,
     F64.compute_score pow context (lower role)
       mapWeight roleWeight bonusWeight h
     = F64.spec_score pow h role context mapWeight roleWeight bonusWeight) ∧
  (∀ res h s,
     F64.recommend pow heroes role context top_n
       mapWeight roleWeight bonusWeight = Some res →
     (h, s) ∈ res →
     F64.spec_score pow h role context mapWeight roleWeight bonusWeight
     = Some s).
Proof.
  split; [intros h; apply compute_score_spec_float|].
  intros res h s Hres Hin.
  destruct (recommend_elem_float _ _ _ _ _ _ _ _ _ _ _ Hres Hin) as [_ Hs].
  by rewrite <- compute_score_spec_float.
Qed.

Lemma recommend_score_formula_witness :
  F64.spec_score F64.pow_exact hero_tie "DPS" "Arena"
    (F64.of_Q 0.6) (F64.of_Q 0.35) (F64.of_Q 0.05)
  = Some (F64.of_Q 0.8673).
Proof.
  eapply (recommend_score_formula F64.pow_exact [hero_tie] "DPS" "Arena" 3).
  - vm_compute. reflexivity.
  - apply list_elem_of_here.
Defined.

(** C2, as the code has it.  [recommend] ends in the slice [scored[:top_n]]:
    for [top_n = 0] the result is empty; for a negative [top_n] it is the
    full ranking without its last [-top_n] entries, which is empty only when
    there are at most [-top_n] candidates. *)
Theorem recommend_nonpositive_top_n pow heroes role map_name top_n mw rw bw res :
  (top_n <= 0)%Z →
  recommend pow heroes role map_name top_n mw rw bw = Some res →
  ∃ full,
    recommend pow heroes role map_name (Z.of_nat (length heroes)) mw rw bw
      = Some full ∧
    length full = length (candidates heroes (lower role)) ∧
    (top_n = 0%Z → res = []) ∧
    ((top_n < 0)%Z → res = take (length full - Z.to_nat (- top_n)) full).
Proof.
  intros Hn (scored & Hsc & ->)%recommend_Some.
  pose proof (score_all_length _ _ _ _ _ _ _ _ Hsc) as Hlen.
  assert (length (candidates heroes (lower role)) ≤ length heroes)%nat as Hc
    by apply length_filter.
  exists (list_sort key_ltb sort_key scored).
  split; [|split; [|split]].
  - apply recommend_Some. exists scored. split; [done|].
    symmetry. apply slice_to_all. rewrite list_sort_length. lia.
  - by rewrite list_sort_length.
  - by intros ->.
  - intros Hneg. by apply slice_to_neg.
Qed.

Lemma recommend_nonpositive_top_n_witness :
  ∃ res full,
    recommend pow_dec HEROES "Tank" "Krakoa" (-1) 0.6 0.35 0.05 = Some res ∧
    recommend pow_dec HEROES "Tank" "Krakoa" 12 0.6 0.35 0.05 = Some full ∧
    length full = 3%nat ∧
    res = take 2 full.
Proof.
  eexists.
  destruct (recommend_nonpositive_top_n pow_dec HEROES "Tank" "Krakoa" (-1)
              0.6 0.35 0.05 _ ltac:(lia) ltac:(vm_compute; reflexivity))
    as (full & Hfull & Hlen & _ & Hres).
  exists full. split; [vm_compute; reflexivity|].
  split; [exact Hfull|]. split; [exact Hlen|].
  rewrite Hres by lia. by rewrite Hlen.
Defined.

(** C2 fails as stated: three heroes of the dataset can play "Tank", and
    with [top_n = -1] the result holds two of them. *)
Lemma negative_top_n_not_empty :
  (-1 <= 0)%Z ∧
  recommend pow_dec HEROES "Tank" "Krakoa" (-1) 0.6 0.35 0.05 ≠ Some [] ∧
  shown <$> recommend pow_dec HEROES "Tank" "Krakoa" (-1) 0.6 0.35 0.05
  = Some [("Hulk", 0.8725); ("Wolverine", 0.7650)].
Proof.
  split; [lia|]. split; [|vm_compute; reflexivity].
  vm_compute. discriminate.
Defined.

(** C3. A hero of the dataset is a candidate exactly when the lowercased
    role is among its stored roles; every hero of the result is such a
    hero, and every such hero is in the result when [top_n] is at least the
    size of the dataset; and when no hero qualifies the result is the empty
    list. *)
Theorem candidates_by_role pow heroes role map_name top_n mw rw bw :
  (∀ h, h ∈ candidates heroes (lower role)
        ↔ h ∈ heroes ∧ lower role ∈ roles h) ∧
  (∀ res h s,
     recommend pow heroes role map_name top_n mw rw bw = Some res →
     (h, s) ∈ res → h ∈ heroes ∧ lower role ∈ roles h) ∧
  (∀ res h,
     recommend pow heroes role map_name top_n mw rw bw = Some res →
     (Z.of_nat (length heroes) <= top_n)%Z →
     h ∈ heroes → lower role ∈ roles h → h ∈ res.*1) ∧
  ((∀ h, h ∈ heroes → lower role ∉ roles h) →
     recommend pow heroes role map_name top_n mw rw bw = Some []).
Proof.
  split; [|split; [|split]].
  - intros h. apply candidates_elem.
  - intros res h s Hres Hin. apply candidates_elem.
    by destruct (recommend_elem _ _ _ _ _ _ _ _ _ _ _ Hres Hin).
  - intros res h (scored & Hsc & ->)%recommend_Some Hn Hh Hr.
    pose proof (score_all_length _ _ _ _ _ _ _ _ Hsc) as Hlen.
    assert (length (candidates heroes (lower role)) ≤ length heroes)%nat as Hc
      by apply length_filter.
    rewrite slice_to_all by (rewrite list_sort_length; lia).
    rewrite list_sort_perm, (score_all_fst _ _ _ _ _ _ _ _ Hsc).
    by apply candidates_elem.
  - intros Hno. unfold recommend; cbv zeta.
    assert (candidates heroes (lower role) = []) as ->.
    { apply elem_of_nil_inv. intros h [Hh Hr]%candidates_elem. by apply (Hno h). }
    simpl. f_equal. unfold slice_to. case_match; apply take_nil.
Qed.

Lemma candidates_by_role_witness :
  recommend pow_dec HEROES "Healer" "Midtown" 3 0.6 0.35 0.05 = Some [].
Proof.
  apply (candidates_by_role pow_dec HEROES "Healer" "Midtown" 3 0.6 0.35 0.05).
  apply Forall_forall. vm_compute.
  repeat constructor; by intros ?%list_elem_of_In; simpl in *; intuition discriminate.
Defined.



(** C5. For a positive [top_n] the result has [min(top_n, number of
    candidates)] entries, and when the candidates are at most [top_n] the
    heroes of the result are all the candidates. *)
Theorem recommend_length pow heroes role map_name top_n mw rw bw res :
  (0 < top_n)%Z →
  recommend pow heroes role map_name top_n mw rw bw = Some res →
  Z.of_nat (length res)
    = Z.min top_n (Z.of_nat (length (candidates heroes (lower role)))) ∧
  ((Z.of_nat (length (candidates heroes (lower role))) <= top_n)%Z →
   res.*1 ≡ₚ candidates heroes (lower role)).
Proof.
  intros Hn (scored & Hsc & ->)%recommend_Some.
  pose proof (score_all_length _ _ _ _ _ _ _ _ Hsc) as Hlen.
  split.
  - rewrite slice_to_length by lia. by rewrite list_sort_length, Hlen.
  - intros Hall. rewrite slice_to_all by (rewrite list_sort_length; lia).
    rewrite list_sort_perm. by rewrite (score_all_fst _ _ _ _ _ _ _ _ Hsc).
Qed.

Lemma recommend_length_witness :
  ∃ res,
    recommend pow_dec HEROES "DPS" "Midtown" 3 0.6 0.35 0.05 = Some res ∧
    Z.of_nat (length res)
      = Z.min 3 (Z.of_nat (length (candidates HEROES (lower "DPS")))) ∧
    length res = 3%nat.
Proof.
  eexists. split; [vm_compute; reflexivity|].
  split; [|reflexivity].
  apply (recommend_length pow_dec HEROES "DPS" "Midtown" 3 0.6 0.35 0.05);
    [lia | vm_compute; reflexivity].
Defined.

(** C6, as the code has it.  For a hero of the result whose bonus for the
    queried pair is 1.0 and whose proficiency for the role lies between 0
    and 1, and for finite weights that are not negative, the score is at
    most [round(map_weight + role_weight, 4)], the sum and the rounding
    being those of floats: the rounding of the score can lift it above the
    sum of the weights, but not above the rounded sum. *)
Theorem score_bound_rounded pow heroes role map_name top_n mw rw bw res h s :
  F64.pow_of_one pow →
  F64.finite mw → F64.finite rw →
  F64.leb (F64.Fin 0) mw = true → F64.leb (F64.Fin 0) rw = true →
  F64.recommend pow heroes role map_name top_n mw rw bw = Some res →
  (h, s) ∈ res →
  F64.of_Q (map_role_bonus_multiplier h map_name (lower role)) = F64.Fin 1 →
  0 <= role_proficiency h (lower role) →
  role_proficiency h (lower role) <= 1 →
  F64.leb s (F64.py_round (F64.add mw rw) 4) = true.
Proof.
  intros Hpow Hmw Hrw Hmw0 Hrw0 Hres Hin Hb Hp0 Hp1.
  destruct (recommend_elem_float _ _ _ _ _ _ _ _ _ _ _ Hres Hin) as [_ Hs].
  by eapply compute_score_bound.
Qed.

Lemma score_bound_rounded_witness :
  F64.leb (F64.of_Q 0.0001)
    (F64.py_round (F64.add (F64.of_Q 0.00003) (F64.of_Q 0.00003)) 4) = true.
Proof.
  apply (score_bound_rounded F64.pow_exact [hero_max] "DPS" "arena" 3
           (F64.of_Q 0.00003) (F64.of_Q 0.00003) (F64.of_Q 0.05)
           [(hero_max, F64.of_Q 0.0001)] hero_max (F64.of_Q 0.0001)).
  - apply pow_exact_of_one.
  - vm_compute. reflexivity.
  - vm_compute. reflexivity.
  - vm_compute. reflexivity.
  - vm_compute. reflexivity.
  - vm_compute. reflexivity.
  - apply list_elem_of_here.
  - vm_compute. reflexivity.
  - vm_compute. discriminate.
  - vm_compute. discriminate.
Defined.

(** C6 fails as stated.  With the weights 0.00003 and 0.00003 the hero
    [hero_max] (map score 10, proficiency 1, no bonus entry) has the base
    6e-05, which [round] lifts to 0.0001, above the sum of the weights; and
    with the weights 0.00005 and 0 its base is the float 5e-05, which lies
    above the tie and is lifted to 0.0001 as well. *)
Lemma score_exceeds_weight_sum :
  F64.of_Q (map_role_bonus_multiplier hero_max "arena" (lower "DPS"))
    = F64.Fin 1 ∧
  (F64.leb (F64.Fin 0) (F64.of_Q 0.00003) = true ∧
   F64.recommend F64.pow_exact [hero_max] "DPS" "arena" 3
     (F64.of_Q 0.00003) (F64.of_Q 0.00003) (F64.of_Q 0.05)
     = Some [(hero_max, F64.of_Q 0.0001)] ∧
   F64.leb (F64.of_Q 0.0001)
     (F64.add (F64.of_Q 0.00003) (F64.of_Q 0.00003)) = false) ∧
  (F64.leb (F64.Fin 0) (F64.of_Q 0.00005) = true ∧
   F64.leb (F64.Fin 0) (F64.of_Q 0) = true ∧
   F64.recommend F64.pow_exact [hero_max] "DPS" "arena" 3
     (F64.of_Q 0.00005) (F64.of_Q 0) (F64.of_Q 0.05)
     = Some [(hero_max, F64.of_Q 0.0001)] ∧
   F64.leb (F64.of_Q 0.0001)
     (F64.add (F64.of_Q 0.00005) (F64.of_Q 0)) = false).
Proof. repeat split; vm_compute; reflexivity. Defined.

(** C7. Missing data never makes the scorer fail, it is replaced by a
    default: without an entry for the map the normalised map score is 0;
    without an entry for the role the proficiency is 0; without an entry for
    the pair the bonus is 1.0 and the score is the rounded base; with none
    of the three the score is 0; and a score that fails always comes from a
    bonus that is stored and that [**] rejects. *)
Theorem missing_data_defaults pow h map_name role mw rw bw :
  pow_of_one pow →
  (map_scores h !! lower map_name = None → map_norm h map_name = 0) ∧
  (role_proficiencies h !! lower role = None →
     role_proficiency h (lower role) = 0) ∧
  (map_role_bonus h !! (lower map_name, lower role) = None →
     map_role_bonus_multiplier h map_name (lower role) = 1 ∧
     compute_score pow map_name (lower role) mw rw bw h
     = Some (py_round (base_score h map_name (lower role) mw rw) 4)) ∧
  (map_scores h !! lower map_name = None →
   role_proficiencies h !! lower role = None →
   map_role_bonus h !! (lower map_name, lower role) = None →
     compute_score pow map_name (lower role) mw rw bw h = Some (0 # 10000)) ∧
  (compute_score pow map_name (lower role) mw rw bw h = None →
     ∃ b, map_role_bonus h !! (lower map_name, lower role) = Some b ∧
          pow (Qred b) (Qred (bw * 10)) = None).
Proof.
  intros Hpow.
  assert (map_scores h !! lower map_name = None → map_norm h map_name = 0)
    as Hnorm.
  { intros E. unfold map_norm, raw_map_score. by rewrite E. }
  assert (role_proficiencies h !! lower role = None →
          role_proficiency h (lower role) = 0) as Hprof.
  { intros E. unfold role_proficiency. by rewrite lower_idemp, E. }
  assert (map_role_bonus h !! (lower map_name, lower role) = None →
          map_role_bonus_multiplier h map_name (lower role) = 1) as Hbonus.
  { intros E. unfold map_role_bonus_multiplier. by rewrite lower_idemp, E. }
  split; [done|]. split; [done|]. split; [|split].
  - intros E. split; [by apply Hbonus|].
    apply compute_score_bonus_one; [done|]. by rewrite Hbonus.
  - intros Em Ep Eb.
    rewrite compute_score_bonus_one; [|done|by rewrite Hbonus].
    f_equal. unfold base_score. rewrite Hnorm, Hprof by done.
    transitivity (py_round 0 4); [|reflexivity].
    apply py_round_proper; [lra|done].
  - intros Hnone.
    destruct (map_role_bonus h !! (lower map_name, lower role)) as [b|] eqn:E.
    + exists b. split; [done|].
      rewrite compute_score_base in Hnone.
      unfold map_role_bonus_multiplier in Hnone.
      rewrite lower_idemp, E in Hnone. simpl in Hnone.
      by destruct (pow (Qred b) (Qred (bw * 10))).
    + rewrite compute_score_bonus_one in Hnone; [done|done|by rewrite Hbonus].
Qed.

Lemma missing_data_defaults_witness :
  compute_score pow_dec "Midtown" (lower "DPS") 0.6 0.35 0.05 hero_beta
  = Some (0 # 10000).
Proof.
  apply (missing_data_defaults pow_dec hero_beta "Midtown" "DPS" 0.6 0.35 0.05);
    [apply pow_dec_of_one | reflexivity..].
Defined.

(** C8. [recommend] does not see the case of its [role] and [map_name]
    arguments: two queries whose roles and whose maps differ only in the
    case of letters return the same result.  The constructor stores every
    role, every key of the map scores and of the proficiencies, and both
    parts of every bonus key in lower case, so that a role given to the
    constructor is found under any of its case variants; and each lookup
    depends on its arguments through their lowercased forms only. *)
Theorem recommend_case_insensitive pow heroes role role' map_name map_name'
    top_n mw rw bw :
  (case_variant role role' → case_variant map_name map_name' →
   recommend pow heroes role map_name top_n mw rw bw
   = recommend pow heroes role' map_name' top_n mw rw bw) ∧
  (∀ name rs ms rp mrb,
     Forall lowercase (roles (Hero_init name rs ms rp mrb)) ∧
     (∀ k v, map_scores (Hero_init name rs ms rp mrb) !! k = Some v →
             lowercase k) ∧
     (∀ k v, role_proficiencies (Hero_init name rs ms rp mrb) !! k = Some v →
             lowercase k) ∧
     (∀ m r v, map_role_bonus (Hero_init name rs ms rp mrb) !! (m, r) = Some v →
               lowercase m ∧ lowercase r) ∧
     (∀ r, r ∈ rs → case_variant r role →
           lower role ∈ roles (Hero_init name rs ms rp mrb))) ∧
  (∀ h, raw_map_score h map_name = raw_map_score h (lower map_name) ∧
        role_proficiency h role = role_proficiency h (lower role) ∧
        map_role_bonus_multiplier h map_name role
        = map_role_bonus_multiplier h (lower map_name) (lower role)).
Proof.
  split; [|split].
  - intros Hr%case_variant_lower Hm%case_variant_lower. by apply recommend_lower.
  - intros name rs ms rp mrb.
    destruct (Hero_init_lowercase name rs ms rp mrb) as (H1 & H2 & H3 & H4).
    repeat (split; [done|]).
    intros r Hin <-%case_variant_lower. simpl.
    apply list_elem_of_fmap. by exists r.
  - intros h.
    unfold raw_map_score, role_proficiency, map_role_bonus_multiplier.
    by rewrite !lower_idemp.
Qed.

Lemma recommend_case_insensitive_witness :
  recommend pow_dec HEROES "DPS" "Midtown" 3 0.6 0.35 0.05
  = recommend pow_dec HEROES "dPs" "mIDTOWN" 3 0.6 0.35 0.05.
Proof.
  apply (recommend_case_insensitive pow_dec HEROES "DPS" "dPs"
           "Midtown" "mIDTOWN" 3 0.6 0.35 0.05).
  - apply case_variant_lower. reflexivity.
  - apply case_variant_lower. reflexivity.
Defined.





(** * Further properties *)

(** ** What a constructed hero holds *)

Lemma dict_comp_kept {K K'} `{Countable K'} (f : K → K') items k :
  dict_comp f items !! k = kept_item f k items.
Proof.
  unfold kept_item.
  induction items as [|[k1 v1] items IH] using rev_ind.
  - unfold dict_comp. simpl. by rewrite lookup_empty.
  - rewrite dict_comp_snoc, filter_app, filter_cons, filter_nil. simpl.
    destruct (decide (f k1 = k)) as [<-|Hne].
    + by rewrite lookup_insert_eq, last_snoc.
    + by rewrite lookup_insert_ne, app_nil_r.
Qed.

(** X1. The lookups of a constructed hero see the items that the constructor
    was given: for a map, a role or a pair, each returns the value of the
    last item whose key is the queried one up to the case of letters, and
    its default (0, 0 and 1.0) when there is no such item. *)
Theorem Hero_init_lookups name rs ms rp mrb map_name role :
  raw_map_score (Hero_init name rs ms rp mrb) map_name
  = default 0 (kept_item lower (lower map_name) (items_or_empty ms)) ∧
  role_proficiency (Hero_init name rs ms rp mrb) role
  = default 0 (kept_item lower (lower role) (items_or_empty rp)) ∧
  map_role_bonus_multiplier (Hero_init name rs ms rp mrb) map_name role
  = default 1 (kept_item (λ mr, (lower mr.1, lower mr.2))
                 (lower map_name, lower role) (items_or_empty mrb)).
Proof.
  unfold raw_map_score, role_proficiency, map_role_bonus_multiplier. simpl.
  by rewrite !dict_comp_kept.
Qed.

(** X2. A constructed hero can play exactly the roles that the constructor
    was given, up to the case of letters. *)
Theorem Hero_init_plays name rs ms rp mrb role :
  lower role ∈ roles (Hero_init name rs ms rp mrb)
  ↔ ∃ r, r ∈ rs ∧ case_variant r role.
Proof.
  simpl. rewrite list_elem_of_fmap. split.
  - intros (r & E & Hr). exists r. split; [done|]. by apply case_variant_lower.
  - intros (r & Hr & E%case_variant_lower). by exists r.
Qed.

Lemma Hero_init_plays_witness :
  lower "dPs" ∈ roles (Hero_init "Storm" ["Support"; "DPS"] None None None).
Proof.
  apply (Hero_init_plays "Storm" ["Support"; "DPS"] None None None "dPs").
  exists "DPS". split; [by right; left|]. apply case_variant_lower. reflexivity.
Defined.

(** ** Scores *)

(** X3. The normalised map score stays between 0 and 1 whatever the stored
    score is: it is a tenth of a stored score between 0 and 10, 0 for a
    negative one and 1 for one above 10. *)
Theorem map_norm_clamped h map_name :
  (0 <= map_norm h map_name ∧ map_norm h map_name <= 1) ∧
  (0 <= raw_map_score h map_name → raw_map_score h map_name <= 10 →
     map_norm h map_name == raw_map_score h map_name * (1 # 10)) ∧
  (raw_map_score h map_name <= 0 → map_norm h map_name == 0) ∧
  (10 <= raw_map_score h map_name → map_norm h map_name == 1).
Proof.
  split; [apply map_norm_range|].
  pose proof (map_norm_clamp h map_name) as E. unfold clamp in E.
  assert (raw_map_score h map_name / 10 == raw_map_score h map_name * (1 # 10))
    as Ediv by (unfold Qdiv; reflexivity).
  repeat split; intros; rewrite E;
    repeat case_match;
    repeat match goal with
    | H : Qltb _ _ = true |- _ => apply Qltb_lt in H
    | H : Qltb _ _ = false |- _ => apply Qltb_ge in H
    end; rewrite ?Ediv in *; lra.
Qed.

Lemma map_norm_clamped_witness :
  map_norm spider_man "Midtown" == 9.5 * (1 # 10).
Proof.
  apply (map_norm_clamped spider_man "Midtown"); by vm_compute.
Defined.

Lemma map_norm_mono h1 h2 map_name :
  raw_map_score h1 map_name <= raw_map_score h2 map_name →
  map_norm h1 map_name <= map_norm h2 map_name.
Proof.
  intros H. rewrite !map_norm_clamp. unfold clamp.
  assert (raw_map_score h1 map_name / 10 <= raw_map_score h2 map_name / 10) as Hd.
  { unfold Qdiv. apply Qmult_le_compat_r; [done|]. by compute. }
  repeat case_match;
    repeat match goal with
    | H : Qltb _ _ = true |- _ => apply Qltb_lt in H
    | H : Qltb _ _ = false |- _ => apply Qltb_ge in H
    end; lra.
Qed.



(** X5. With a bonus weight of 0 the bonus entries play no part: the query
    succeeds whatever they hold, and every score is the rounded base. *)
Theorem bonus_weight_zero pow heroes role map_name top_n mw rw bw :
  pow_of_zero_exponent pow →
  bw == 0 →
  ∃ res,
    recommend pow heroes role map_name top_n mw rw bw = Some res ∧
    ∀ h s, (h, s) ∈ res →
      s = py_round (base_score h map_name (lower role) mw rw) 4.
Proof.
  intros Hpow Hbw.
  assert (Qred (bw * 10) = 0) as Hexp.
  { transitivity (Qred 0); [|reflexivity]. apply Qred_complete. lra. }
  assert (∀ h, compute_score pow map_name (lower role) mw rw bw h
               = Some (py_round (base_score h map_name (lower role) mw rw) 4))
    as Hscore.
  { intros h. rewrite compute_score_base, Hexp, Hpow. simpl. f_equal.
    apply py_round_proper; [lra|done]. }
  destruct (proj2 (recommend_is_Some pow heroes role map_name top_n mw rw bw))
    as [res Hres].
  { intros h _. rewrite Hexp, Hpow. by eexists. }
  exists res. split; [done|]. intros h s Hin.
  destruct (recommend_elem _ _ _ _ _ _ _ _ _ _ _ Hres Hin) as [_ Hs].
  rewrite Hscore in Hs. by injection Hs.
Qed.

Lemma bonus_weight_zero_witness :
  ∃ res,
    recommend pow_dec [hero_broken] "DPS" "arena" 3 0.6 0.35 0 = Some res ∧
    ∀ h s, (h, s) ∈ res →
      s = py_round (base_score h "arena" (lower "DPS") 0.6 0.35) 4.
Proof.
  apply (bonus_weight_zero pow_dec [hero_broken] "DPS" "arena" 3 0.6 0.35 0).
  - intros b. reflexivity.
  - reflexivity.
Defined.

(** ** Queries *)

(** X6. A query fails exactly when the power fails for the bonus of some
    hero of the dataset that can play the role.  The limit [top_n] and the
    two other weights play no part in it: the scores of all candidates are
    computed before the ranking is cut. *)
Theorem recommend_fails_iff pow heroes role map_name top_n mw rw bw :
  recommend pow heroes role map_name top_n mw rw bw = None
  ↔ ∃ h, h ∈ heroes ∧ lower role ∈ roles h ∧
         pow (Qred (map_role_bonus_multiplier h map_name (lower role)))
             (Qred (bw * 10)) = None.
Proof.
  rewrite eq_None_not_Some, recommend_is_Some. split.
  - intros Hnot.
    destruct (decide (Exists (λ h, pow (Qred (map_role_bonus_multiplier h map_name (lower role)))
             (Qred (bw * 10)) = None) (candidates heroes (lower role)))) as [Hex|Hnex].
    + apply Exists_exists in Hex as (h & [Hh Hr]%candidates_elem & Hp). eauto.
    + destruct Hnot. intros h Hh. apply not_eq_None_Some. intros Hp.
      apply Hnex, Exists_exists. eauto.
  - intros (h & Hh & Hr & Hp) Hall.
    destruct (Hall h) as [p Hp']; [by apply candidates_elem|]. congruence.
Qed.

Lemma recommend_fails_iff_witness :
  recommend pow_dec [hero_max; hero_broken] "DPS" "arena" 0 0.6 0.35 0.05 = None.
Proof.
  apply (recommend_fails_iff pow_dec [hero_max; hero_broken] "DPS" "arena" 0
           0.6 0.35 0.05).
  exists hero_broken. split; [by right; left|]. split; [by left|].
  vm_compute. reflexivity.
Defined.

(** X7. A query invents no hero and repeats none: the heroes of the result
    are taken from the dataset, each at most as often as it occurs there. *)
Theorem recommend_no_repeats pow heroes role map_name top_n mw rw bw res :
  recommend pow heroes role map_name top_n mw rw bw = Some res →
  res.*1 ⊆+ heroes ∧ (NoDup heroes → NoDup res.*1).
Proof.
  intros (scored & Hsc & ->)%recommend_Some.
  assert ((slice_to (list_sort key_ltb sort_key scored) top_n).*1 ⊆+ heroes)
    as Hsub.
  { etrans; [apply fmap_submseteq, sublist_submseteq, prefix_sublist,
             slice_to_prefix|].
    rewrite list_sort_perm, (score_all_fst _ _ _ _ _ _ _ _ Hsc).
    apply sublist_submseteq, sublist_filter. }
  split; [done|]. intros Hnd.
  apply submseteq_Permutation in Hsub as [k Hk]. rewrite Hk in Hnd.
  by apply NoDup_app in Hnd as [? _].
Qed.

Lemma recommend_no_repeats_witness :
  ∃ res,
    recommend pow_dec HEROES "DPS" "Midtown" 3 0.6 0.35 0.05 = Some res ∧
    res.*1 ⊆+ HEROES.
Proof.
  eexists. split; [vm_compute; reflexivity|].
  apply (recommend_no_repeats pow_dec HEROES "DPS" "Midtown" 3 0.6 0.35 0.05).
  vm_compute. reflexivity.
Defined.

(** X8. A longer list starts with the shorter one: the result for a limit
    [k >= 0] is the first [k] entries of the result for any larger limit. *)
Theorem recommend_top_n_prefix pow heroes role map_name k n mw rw bw shorter longer :
  (0 <= k)%Z → (k <= n)%Z →
  recommend pow heroes role map_name k mw rw bw = Some shorter →
  recommend pow heroes role map_name n mw rw bw = Some longer →
  shorter = take (Z.to_nat k) longer.
Proof.
  intros Hk Hkn (scored & Hsc & ->)%recommend_Some
    (scored' & Hsc' & ->)%recommend_Some.
  assert (scored' = scored) as -> by congruence.
  unfold slice_to.
  destruct (Z.leb_spec 0 k); [|lia]. destruct (Z.leb_spec 0 n); [|lia].
  rewrite take_take. f_equal. lia.
Qed.

Lemma recommend_top_n_prefix_witness :
  ∃ shorter longer,
    recommend pow_dec HEROES "DPS" "Midtown" 1 0.6 0.35 0.05 = Some shorter ∧
    recommend pow_dec HEROES "DPS" "Midtown" 3 0.6 0.35 0.05 = Some longer ∧
    shorter = take 1 longer.
Proof.
  eexists _, _. split; [vm_compute; reflexivity|].
  split; [vm_compute; reflexivity|].
  apply (recommend_top_n_prefix pow_dec HEROES "DPS" "Midtown" 1 3
           0.6 0.35 0.05); [lia | lia | vm_compute; reflexivity..].
Defined.



(** X10. Heroes that cannot play the role do not count: leaving them out of
    the dataset, wherever they stand in it, leaves the result as it is, and
    so does a query on the candidates alone. *)
Theorem recommend_ignores_others pow heroes others places role map_name top_n mw rw bw :
  (∀ h, h ∈ others → lower role ∉ roles h) →
  recommend pow (heroes ++ others ++ places) role map_name top_n mw rw bw
  = recommend pow (heroes ++ places) role map_name top_n mw rw bw ∧
  recommend pow (candidates heroes (lower role)) role map_name top_n mw rw bw
  = recommend pow heroes role map_name top_n mw rw bw.
Proof.
  intros Hno. unfold recommend; cbv zeta. split.
  - assert (candidates (heroes ++ others ++ places) (lower role)
            = candidates (heroes ++ places) (lower role)) as ->; [|done].
    unfold candidates. rewrite !filter_app.
    assert (filter (λ h, lower role ∈ roles h) others = []) as ->; [|done].
    apply elem_of_nil_inv. intros h [Hr Hh]%list_elem_of_filter. by apply (Hno h).
  - assert (candidates (candidates heroes (lower role)) (lower role)
            = candidates heroes (lower role)) as ->; [|done].
    unfold candidates. rewrite list_filter_filter.
    apply list_filter_iff. tauto.
Qed.

Lemma recommend_ignores_others_witness :
  recommend pow_dec ([hero_max] ++ [hero_tank] ++ [hero_beta])
    "DPS" "arena" 3 0.6 0.35 0.05
  = recommend pow_dec ([hero_max] ++ [hero_beta]) "DPS" "arena" 3 0.6 0.35 0.05.
Proof.
  apply (recommend_ignores_others pow_dec [hero_max] [hero_tank] [hero_beta]
           "DPS" "arena" 3 0.6 0.35 0.05).
  intros h ->%list_elem_of_singleton. vm_compute.
  by intros ?%list_elem_of_singleton.
Defined.

Lemma compute_score_den pow map_name role_lc mw rw bw h s :
  compute_score pow map_name role_lc mw rw bw h = Some s → Qden s = 10000%positive.
Proof.
  rewrite compute_score_base. destruct (pow _ _); simpl; [|done].
  by intros [= <-].
Qed.

Lemma score_all_fmap pow map_name role_lc mw rw bw cands scored :
  score_all pow map_name role_lc mw rw bw cands = Some scored →
  scored = (λ h, (h, default 0 (compute_score pow map_name role_lc mw rw bw h)))
             <$> cands.
Proof.
  rewrite score_all_Some. induction 1 as [|h [h' s] ?? [E1 E2]]; simpl; [done|].
  simpl in *. subst. rewrite E2. simpl. by f_equal.
Qed.

Lemma score_all_Permutation pow map_name role_lc mw rw bw cands cands' scored :
  cands ≡ₚ cands' →
  score_all pow map_name role_lc mw rw bw cands = Some scored →
  ∃ scored',
    score_all pow map_name role_lc mw rw bw cands' = Some scored' ∧
    scored ≡ₚ scored'.
Proof.
  intros Hp Hsc.
  destruct (proj2 (score_all_is_Some pow map_name role_lc mw rw bw cands'))
    as [scored' Hsc'].
  { intros h Hh. rewrite <- Hp in Hh.
    by apply (proj1 (score_all_is_Some pow map_name role_lc mw rw bw cands)). }
  exists scored'. split; [done|].
  rewrite (score_all_fmap _ _ _ _ _ _ _ _ Hsc), (score_all_fmap _ _ _ _ _ _ _ _ Hsc').
  by rewrite Hp.
Qed.

Lemma line_before_antisym a b :
  Qden a.1 = Qden b.1 → line_before a b → line_before b a → a = b.
Proof.
  destruct a as [[na da] sa], b as [[nb db] sb]. simpl. intros ->.
  unfold line_before. simpl.
  intros [H1|[E1 L1]] [H2|[E2 L2]]; try lra.
  f_equal; [|by apply String.leb_antisym].
  unfold Qeq in E1. simpl in E1. f_equal. nia.
Qed.

Lemma fmap_slice_to {A B} (f : A → B) (l : list A) n :
  f <$> slice_to l n = slice_to (f <$> l) n.
Proof. unfold slice_to. rewrite length_fmap. case_match; apply fmap_take. Qed.

Lemma NoDup_fmap_eq {A B} (f : A → B) (l : list A) x y :
  NoDup (f <$> l) → x ∈ l → y ∈ l → f x = f y → x = y.
Proof.
  induction l as [|z l IH]; simpl; [by intros _ ?%elem_of_nil|].
  intros [Hz Hnd]%NoDup_cons [->|Hx]%elem_of_cons [->|Hy]%elem_of_cons E;
    [done| | |by apply IH].
  - destruct Hz. rewrite E. by apply list_elem_of_fmap_2.
  - destruct Hz. rewrite <- E. by apply list_elem_of_fmap_2.
Qed.

Lemma Forall2_impl_elem {A B} (P R : A → B → Prop) l k :
  Forall2 P l k →
  (∀ x y, x ∈ l → y ∈ k → P x y → R x y) →
  Forall2 R l k.
Proof.
  induction 1 as [|x y l k Hxy _ IH]; intros HPR; constructor.
  - apply HPR; [left..|done].
  - apply IH. intros x' y' Hx Hy. apply HPR; by right.
Qed.



(** ** White space and case *)

Lemma is_space_lower c : is_space (lower_ascii c) = is_space c.
Proof.
  unfold is_space. rewrite N_of_lower_ascii.
  destruct ((65 <=? N_of_ascii c)%N && (N_of_ascii c <=? 90)%N) eqn:E; [|done].
  apply andb_prop in E as [E1%N.leb_le E2%N.leb_le].
  repeat match goal with
  | |- context [(?a <=? ?b)%N] => destruct (N.leb_spec a b)
  end; simpl; try done; lia.
Qed.

Lemma lstrip_lower s : lstrip (lower s) = lower (lstrip s).
Proof.
  induction s as [|c s IH]; simpl; [done|].
  rewrite is_space_lower. by destruct (is_space c).
Qed.

Lemma rstrip_lower s : rstrip (lower s) = lower (rstrip s).
Proof.
  induction s as [|c s IH]; simpl; [done|].
  rewrite IH, is_space_lower.
  destruct (rstrip s); simpl; [by destruct (is_space c)|done].
Qed.

Lemma strip_lower s : strip (lower s) = lower (strip s).
Proof. unfold strip. by rewrite lstrip_lower, rstrip_lower. Qed.

Lemma lower_app s t : lower (s +:+ t) = lower s +:+ lower t.
Proof. induction s as [|c s IH]; simpl; [done|]. by rewrite IH. Qed.

Lemma lower_length s : String.length (lower s) = String.length s.
Proof. induction s as [|c s IH]; simpl; [done|]. by rewrite IH. Qed.

Lemma lstrip_length s : (String.length (lstrip s) ≤ String.length s)%nat.
Proof.
  induction s as [|c s IH]; simpl; [done|].
  destruct (is_space c); simpl; lia.
Qed.

Lemma lstrip_same_length s :
  String.length (lstrip s) = String.length s → lstrip s = s.
Proof.
  destruct s as [|c s]; simpl; [done|].
  destruct (is_space c); [|done].
  pose proof (lstrip_length s). lia.
Qed.

Lemma rstrip_length s : (String.length (rstrip s) ≤ String.length s)%nat.
Proof.
  induction s as [|c s IH]; simpl; [done|].
  destruct (rstrip s); simpl in *; [destruct (is_space c); simpl; lia|lia].
Qed.

Lemma rstrip_same_length s :
  String.length (rstrip s) = String.length s → rstrip s = s.
Proof.
  induction s as [|c s IH]; simpl; [done|].
  pose proof (rstrip_length s) as Hle.
  destruct (rstrip s) eqn:E; simpl in *.
  - destruct (is_space c); simpl; [lia|].
    intros [= Hs]. destruct s; [done|discriminate].
  - intros [= Hs]. by rewrite IH.
Qed.

Lemma strip_same_length s :
  String.length (strip s) = String.length s → strip s = s.
Proof.
  unfold strip. intros E.
  pose proof (rstrip_length (lstrip s)). pose proof (lstrip_length s).
  assert (lstrip s = s) as Hl by (apply lstrip_same_length; lia).
  rewrite Hl in *. by apply rstrip_same_length.
Qed.

Lemma lstrip_head s :
  match lstrip s with
  | EmptyString => True
  | String c _ => is_space c = false
  end.
Proof.
  induction s as [|c s IH]; simpl; [done|].
  destruct (is_space c) eqn:E; [done|]. by simpl.
Qed.

Lemma rstrip_idemp s : rstrip (rstrip s) = rstrip s.
Proof.
  induction s as [|c s IH]; simpl; [done|].
  destruct (rstrip s) as [|d r] eqn:E.
  - destruct (is_space c) eqn:Ec; simpl; [done|]. by rewrite Ec.
  - change (rstrip (String c (String d r))) with
      (match rstrip (String d r) with
       | EmptyString => if is_space c then EmptyString else String c EmptyString
       | r' => String c r'
       end).
    by rewrite IH.
Qed.

(** [rstrip] leaves the first character of a text that does not start with
    white space. *)
Lemma rstrip_head c s :
  is_space c = false → ∃ r, rstrip (String c s) = String c r.
Proof.
  intros Hc. simpl. destruct (rstrip s); [rewrite Hc|]; eauto.
Qed.

Lemma strip_idemp s : strip (strip s) = strip s.
Proof.
  unfold strip. pose proof (lstrip_head s) as H.
  destruct (lstrip s) as [|c t] eqn:E; [done|].
  destruct (rstrip_head c t H) as [r Hr]. rewrite Hr.
  simpl lstrip. rewrite H. rewrite <- Hr. apply rstrip_idemp.
Qed.

(** ** The prompt *)

(** An accepted answer stands for an option, and [index] and the access by
    index find it. *)
Lemma chosen_option_valid options answer :
  valid_answer options answer →
  ∃ i o,
    list_find (λ y, y = lower (strip answer)) (lower <$> options)
      = Some (i, lower o) ∧
    options !! i = Some o ∧
    chosen_option options answer = Some o.
Proof.
  unfold valid_answer, chosen_option. intros Hv.
  rewrite list_find_fmap.
  destruct (list_find ((λ y, y = lower (strip answer)) ∘ lower) options)
    as [[i o]|] eqn:E.
  - exists i, o. split; [done|].
    assert (list_find (λ o, lower o = lower (strip answer)) options
            = Some (i, o)) as E' by exact E.
    rewrite E'. split; [|done].
    by apply list_find_Some in E as [? _].
  - apply list_find_None in E. rewrite Forall_forall in E.
    apply list_elem_of_fmap in Hv as (o & Ho & Hin).
    by destruct (E o Hin).
Qed.

(** One run of the loop, from the lines that are left: the lines before the
    first accepted one are rejected, one after the other. *)
Lemma prompt_loop_run prompt options lines out :
  prompt_loop prompt options (lower <$> options) lines (mkWorld lines out)
  = match list_find (valid_answer options) lines with
    | Some (i, answer) =>
        (match chosen_option options answer with
         | Some o => Ok o
         | None => Raise ValueError
         end,
         mkWorld (drop (S i) lines)
           (out ++ mjoin (replicate i (rejected prompt options))
                ++ asked prompt))
    | None =>
        (Raise EOFError,
         mkWorld []
           (out ++ mjoin (replicate (length lines) (rejected prompt options))
                ++ asked prompt))
    end.
Proof.
  revert out. induction lines as [|line lines IH]; intros out.
  - simpl. unfold io_bind, print, input, asked. simpl.
    by rewrite <- !app_assoc.
  - cbn [list_find]. destruct (decide (valid_answer options line)) as [Hv|Hn].
    + destruct (chosen_option_valid options line Hv) as (i & o & Hi & Ho & Hc).
      rewrite Hc. cbn [prompt_loop]. unfold io_bind at 1 2. cbn.
      rewrite decide_True by exact Hv.
      unfold io_bind, list_index. rewrite Hi. cbn.
      unfold list_getitem. rewrite Ho. cbn. unfold asked.
      by rewrite <- !app_assoc.
    + cbn [prompt_loop]. unfold io_bind at 1 2. cbn.
      rewrite decide_False by exact Hn.
      unfold io_bind at 1. cbn. rewrite IH.
      destruct (list_find (valid_answer options) lines) as [[i answer]|];
        cbn; unfold rejected, asked; by rewrite <- !app_assoc.
Qed.

Lemma list_find_first {A} (P : A → Prop) `{∀ x, Decision (P x)} before x rest :
  Forall (λ y, ¬ P y) before → P x →
  list_find P (before ++ x :: rest) = Some (length before, x).
Proof.
  intros Hb Hx. apply list_find_Some. split; [|split; [done|]].
  - by rewrite list_lookup_middle.
  - intros j y Hj Hlt. rewrite lookup_app_l in Hj by done.
    rewrite Forall_forall in Hb. apply Hb. by eapply list_elem_of_lookup_2.
Qed.

Lemma chosen_option_Some options answer o :
  chosen_option options answer = Some o →
  o ∈ options ∧ lower o = lower (strip answer) ∧ strip o = o.
Proof.
  unfold chosen_option. intros Hc.
  destruct (list_find _ options) as [[i o']|] eqn:E; [|done].
  injection Hc as ->.
  apply list_find_Some in E as (Hi & Ho & _).
  split; [by eapply list_elem_of_lookup_2|]. split; [done|].
  apply strip_same_length.
  rewrite <- (lower_length (strip o)), <- strip_lower, Ho, strip_lower,
    strip_idemp, <- Ho.
  apply lower_length.
Qed.

(** X12. An accepted answer ends the prompt.  When the input holds lines
    that are no option and then a line that is one, up to the case of
    letters and the white space around it, [_prompt_choice] returns the
    first option that the line stands for, in the spelling of the list of
    options; it has read the lines up to that one and no further, and it
    has written the prompt and the message for every line it passed over
    and the prompt for the one it took. *)
Theorem prompt_choice_accepts prompt options w before answer rest :
  stdin w = before ++ answer :: rest →
  Forall (λ a, ¬ valid_answer options a) before →
  valid_answer options answer →
  ∃ o,
    chosen_option options answer = Some o ∧
    o ∈ options ∧
    case_variant o (strip answer) ∧
    _prompt_choice prompt options w
    = (Ok o,
       mkWorld rest
         (stdout w
            ++ mjoin (replicate (length before) (rejected prompt options))
            ++ asked prompt)).
Proof.
  intros Hin Hb Hv.
  destruct (chosen_option_valid options answer Hv) as (_ & o & _ & _ & Hc).
  exists o. destruct (chosen_option_Some _ _ _ Hc) as (Ho & El & _).
  split; [done|]. split; [done|]. split; [by apply case_variant_lower|].
  unfold _prompt_choice. destruct w as [lines out]. simpl in *. subst lines.
  rewrite prompt_loop_run, (list_find_first _ _ _ _ Hb Hv), Hc.
  rewrite cons_middle, app_assoc, drop_app_length'; [done|].
  rewrite length_app. simpl. lia.
Qed.

Lemma prompt_loop_all_rejected prompt options w :
  Forall (λ a, ¬ valid_answer options a) (stdin w) →
  _prompt_choice prompt options w
  = (Raise EOFError,
     mkWorld []
       (stdout w
          ++ mjoin (replicate (length (stdin w)) (rejected prompt options))
          ++ asked prompt)).
Proof.
  intros Hb. unfold _prompt_choice. destruct w as [lines out]. simpl in *.
  rewrite prompt_loop_run.
  by rewrite (proj2 (list_find_None (valid_answer options) lines) Hb).
Qed.

(** X13. Without an acceptable answer the prompt ends in [EOFError]: it
    has read all the input, and written the prompt and the message for
    every line and the prompt once more. *)
Theorem prompt_choice_eof prompt options w :
  Forall (λ a, ¬ valid_answer options a) (stdin w) →
  _prompt_choice prompt options w
  = (Raise EOFError,
     mkWorld []
       (stdout w
          ++ mjoin (replicate (length (stdin w)) (rejected prompt options))
          ++ asked prompt)).
Proof. apply prompt_loop_all_rejected. Qed.

(** X14. With an empty list of options no answer is right: the prompt
    rejects every line of the input and ends in [EOFError]. *)
Theorem prompt_choice_no_options prompt w :
  _prompt_choice prompt [] w
  = (Raise EOFError,
     mkWorld []
       (stdout w
          ++ mjoin (replicate (length (stdin w)) (rejected prompt []))
          ++ asked prompt)).
Proof.
  apply prompt_loop_all_rejected. apply Forall_forall.
  intros a _. unfold valid_answer. simpl. apply not_elem_of_nil.
Qed.

Lemma prompt_choice_accepts_witness :
  ∃ o,
    chosen_option ["Convergence"; "Convoy"] " CONVOY " = Some o ∧
    o ∈ ["Convergence"; "Convoy"] ∧
    case_variant o (strip " CONVOY ") ∧
    _prompt_choice "Choose a gamemode:" ["Convergence"; "Convoy"]
      (mkWorld ["dunno"; " CONVOY "; "Midtown"] [])
    = (Ok o,
       mkWorld ["Midtown"]
         ([] ++ mjoin (replicate (length ["dunno"])
                         (rejected "Choose a gamemode:"
                            ["Convergence"; "Convoy"]))
             ++ asked "Choose a gamemode:")).
Proof.
  apply (prompt_choice_accepts "Choose a gamemode:" ["Convergence"; "Convoy"]
           (mkWorld ["dunno"; " CONVOY "; "Midtown"] []) ["dunno"]).
  - reflexivity.
  - apply (bool_decide_unpack _). by vm_compute.
  - apply (bool_decide_unpack _). by vm_compute.
Defined.

Lemma prompt_choice_eof_witness :
  _prompt_choice "Choose a gamemode:" ["Convergence"; "Convoy"]
    (mkWorld ["dunno"; "con voy"] [])
  = (Raise EOFError,
     mkWorld []
       ([] ++ mjoin (replicate 2 (rejected "Choose a gamemode:"
                                   ["Convergence"; "Convoy"]))
           ++ asked "Choose a gamemode:")).
Proof.
  apply (prompt_choice_eof "Choose a gamemode:" ["Convergence"; "Convoy"]
           (mkWorld ["dunno"; "con voy"] [])).
  apply (bool_decide_unpack _). by vm_compute.
Defined.

Lemma prompt_choice_cases prompt options w r w' :
  _prompt_choice prompt options w = (r, w') →
  stdin w' `suffix_of` stdin w ∧
  stdout w `prefix_of` stdout w' ∧
  ((∃ o, r = Ok o ∧ o ∈ options ∧ strip o = o) ∨
   (r = Raise EOFError ∧ stdin w' = [])).
Proof.
  unfold _prompt_choice. destruct w as [lines out]. simpl.
  rewrite prompt_loop_run.
  destruct (list_find (valid_answer options) lines) as [[i answer]|] eqn:E.
  - apply list_find_Some in E as (_ & Hv & _).
    destruct (chosen_option_valid options answer Hv) as (_ & o & _ & _ & Hc).
    rewrite Hc. intros [= <- <-]. simpl.
    split; [apply suffix_drop|]. split; [by apply prefix_app_r|].
    left. exists o. destruct (chosen_option_Some _ _ _ Hc) as (? & _ & ?).
    done.
  - intros [= <- <-]. simpl.
    split; [apply suffix_nil|]. split; [by apply prefix_app_r|].
    by right.
Qed.

(** X15. The prompt ends with one of the options or with [EOFError], never
    with another exception; an option that it returns has no white space
    at its ends, so that an option with such white space can never be
    chosen.  It only takes lines from the front of the input, all of them
    when it ends in [EOFError], and only adds to the output. *)
Theorem prompt_choice_outcome prompt options w r w' :
  _prompt_choice prompt options w = (r, w') →
  stdin w' `suffix_of` stdin w ∧
  stdout w `prefix_of` stdout w' ∧
  ((∃ o, r = Ok o ∧ o ∈ options ∧ strip o = o) ∨
   (r = Raise EOFError ∧ stdin w' = [])).
Proof. apply prompt_choice_cases. Qed.

Lemma valid_answer_same options a b :
  same_answer a b → valid_answer options a ↔ valid_answer options b.
Proof. unfold same_answer, valid_answer. by intros ->. Qed.

Lemma chosen_option_same options a b :
  same_answer a b → chosen_option options a = chosen_option options b.
Proof. unfold same_answer, chosen_option. by intros ->. Qed.

Lemma list_find_Forall2 {A} (P : A → Prop) `{∀ x, Decision (P x)}
    (R : A → A → Prop) l l' :
  (∀ a b, R a b → P a ↔ P b) →
  Forall2 R l l' →
  match list_find P l, list_find P l' with
  | Some (i, a), Some (j, b) => i = j ∧ R a b
  | None, None => True
  | _, _ => False
  end.
Proof.
  intros HP. induction 1 as [|a b l l' Hab _ IH]; simpl; [done|].
  destruct (decide (P a)) as [Ha|Ha], (decide (P b)) as [Hb|Hb].
  - done.
  - destruct Hb. by apply (HP a b Hab).
  - destruct Ha. by apply (HP a b Hab).
  - destruct (list_find P l) as [[i x]|], (list_find P l') as [[j y]|];
      simpl; try done. by destruct IH as [-> ?].
Qed.

(** Two runs of the prompt on inputs that agree line by line, up to case
    and white space: the same outcome, the same texts written, and what is
    left of the inputs agrees again. *)
Lemma prompt_choice_related prompt options w w' :
  Forall2 same_answer (stdin w) (stdin w') →
  ∃ written,
    (_prompt_choice prompt options w).1 = (_prompt_choice prompt options w').1 ∧
    stdout (_prompt_choice prompt options w).2 = stdout w ++ written ∧
    stdout (_prompt_choice prompt options w').2 = stdout w' ++ written ∧
    Forall2 same_answer (stdin (_prompt_choice prompt options w).2)
      (stdin (_prompt_choice prompt options w').2).
Proof.
  unfold _prompt_choice. destruct w as [lines out], w' as [lines' out'].
  simpl. intros HF. rewrite !prompt_loop_run.
  pose proof (list_find_Forall2 (valid_answer options) same_answer lines lines'
                (valid_answer_same options) HF) as Hfind.
  destruct (list_find (valid_answer options) lines) as [[i a]|],
    (list_find (valid_answer options) lines') as [[j b]|]; try done.
  - destruct Hfind as [<- Hab]. rewrite (chosen_option_same options a b Hab).
    simpl. eexists. split; [done|]. split; [done|]. split; [done|].
    by apply Forall2_drop.
  - simpl. rewrite (Forall2_length _ _ _ HF). eexists. by repeat split.
Qed.

(** X16. The prompt does not see the case of the answers nor the white
    space around them: on two inputs that agree line by line up to these,
    it ends in the same way, returns the same option, writes the same
    texts and leaves inputs that agree again. *)
Theorem prompt_choice_insensitive prompt options w w' :
  Forall2 same_answer (stdin w) (stdin w') →
  stdout w = stdout w' →
  (_prompt_choice prompt options w).1 = (_prompt_choice prompt options w').1 ∧
  stdout (_prompt_choice prompt options w).2
  = stdout (_prompt_choice prompt options w').2 ∧
  Forall2 same_answer (stdin (_prompt_choice prompt options w).2)
    (stdin (_prompt_choice prompt options w').2).
Proof.
  intros HF Hout.
  destruct (prompt_choice_related prompt options w w' HF)
    as (written & Hr & H1 & H2 & Hin).
  split; [done|]. split; [|done]. by rewrite H1, H2, Hout.
Qed.

Lemma prompt_choice_insensitive_witness :
  (_prompt_choice "Which map are you playing?" ["Midtown"; "Arakko"]
     (mkWorld ["central park"; "ARAKKO"] [])).1
  = (_prompt_choice "Which map are you playing?" ["Midtown"; "Arakko"]
       (mkWorld [" Central Park"; "  Arakko  "] [])).1 ∧
  stdout (_prompt_choice "Which map are you playing?" ["Midtown"; "Arakko"]
            (mkWorld ["central park"; "ARAKKO"] [])).2
  = stdout (_prompt_choice "Which map are you playing?" ["Midtown"; "Arakko"]
              (mkWorld [" Central Park"; "  Arakko  "] [])).2 ∧
  Forall2 same_answer
    (stdin (_prompt_choice "Which map are you playing?" ["Midtown"; "Arakko"]
              (mkWorld ["central park"; "ARAKKO"] [])).2)
    (stdin (_prompt_choice "Which map are you playing?" ["Midtown"; "Arakko"]
              (mkWorld [" Central Park"; "  Arakko  "] [])).2).
Proof.
  apply (prompt_choice_insensitive "Which map are you playing?"
           ["Midtown"; "Arakko"]
           (mkWorld ["central park"; "ARAKKO"] [])
           (mkWorld [" Central Park"; "  Arakko  "] [])).
  - repeat constructor.
  - reflexivity.
Defined.

Lemma prompt_choice_outcome_witness :
  stdin (mkWorld ["Midtown"] ["Choose:" +:+ nl; "> "])
    `suffix_of` stdin (mkWorld [" convoy"; "Midtown"] []) ∧
  stdout (mkWorld [" convoy"; "Midtown"] [])
    `prefix_of` stdout (mkWorld ["Midtown"] ["Choose:" +:+ nl; "> "]) ∧
  ((∃ o, Ok "Convoy" = Ok o ∧ o ∈ ["Convergence"; "Convoy"] ∧ strip o = o) ∨
   (Ok "Convoy" = Raise EOFError ∧
    stdin (mkWorld ["Midtown"] ["Choose:" +:+ nl; "> "]) = [])).
Proof.
  apply (prompt_choice_outcome "Choose:" ["Convergence"; "Convoy"]
           (mkWorld [" convoy"; "Midtown"] [])).
  reflexivity.
Defined.

(** ** The dialogue *)

Lemma dict_getitem_key {A} (d : list (string * A)) k w :
  k ∈ d.*1 → ∃ v, (k, v) ∈ d ∧ dict_getitem d k w = (Ok v, w).
Proof.
  intros Hk. unfold dict_getitem.
  destruct (list_find (λ kv, kv.1 = k) d) as [[i [k' v]]|] eqn:E.
  - apply list_find_Some in E as (Hi & Hk' & _). simpl in Hk'. subst k'.
    exists v. split; [by eapply list_elem_of_lookup_2|done].
  - apply list_find_None in E. rewrite Forall_forall in E.
    apply list_elem_of_fmap in Hk as ([k' v] & -> & Hin).
    by destruct (E _ Hin).
Qed.

Lemma dict_getitem_run {A} (d : list (string * A)) k w :
  dict_getitem d k w = ((dict_getitem d k (mkWorld [] [])).1, w).
Proof.
  unfold dict_getitem. by destruct (list_find _ d) as [[i [k' v]]|].
Qed.

Lemma chosen_option_is_valid options answer o :
  chosen_option options answer = Some o → valid_answer options answer.
Proof.
  intros (Ho & Hl & _)%chosen_option_Some. unfold valid_answer.
  rewrite <- Hl. by apply list_elem_of_fmap_2.
Qed.

Lemma dict_getitem_NoDup {A} (d : list (string * A)) k v w :
  NoDup d.*1 → (k, v) ∈ d → dict_getitem d k w = (Ok v, w).
Proof.
  intros Hnd Hin. unfold dict_getitem.
  destruct (list_find (λ kv, kv.1 = k) d) as [[i [k' v']]|] eqn:E.
  - apply list_find_Some in E as (Hi & Hk' & _). simpl in Hk'. subst k'.
    apply list_elem_of_lookup_1 in Hin as [j Hj].
    assert (i = j) as ->.
    { eapply NoDup_lookup; [exact Hnd|..];
        rewrite list_lookup_fmap; [by rewrite Hi|by rewrite Hj]. }
    by simplify_eq.
  - apply list_find_None in E. rewrite Forall_forall in E.
    by destruct (E _ Hin).
Qed.

Lemma gamemodes_NoDup : NoDup gamemodes.*1.
Proof. apply (bool_decide_unpack _). by vm_compute. Qed.

Lemma HEROES_bonus_positive h map_name role :
  h ∈ HEROES → 0 < map_role_bonus_multiplier h map_name role.
Proof.
  intros Hh.
  assert (Forall (λ h, map_Forall (λ _ v, (0 < Qnum v)%Z) (map_role_bonus h))
            HEROES) as Hall.
  { apply (bool_decide_unpack _). by vm_compute. }
  rewrite Forall_forall in Hall. specialize (Hall h Hh).
  unfold map_role_bonus_multiplier.
  destruct (map_role_bonus h !! _) as [v|] eqn:E; simpl; [|done].
  apply Hall in E. unfold Qlt. simpl. lia.
Qed.

Lemma pow_dec_on_positive e : pow_on_positive pow_dec e.
Proof.
  intros b Hb. unfold pow_dec.
  destruct (Qeq_bool e 0); [done|]. destruct (Qeq_bool b 1); [done|].
  destruct (Qeq_bool b 0) eqn:E0.
  { apply Qeq_bool_iff in E0. rewrite E0 in Hb. by apply Qlt_irrefl in Hb. }
  destruct (Qden (Qred e) =? 1)%positive; [done|].
  destruct (Qltb b 0) eqn:El; [|done].
  apply Qltb_lt in El. exfalso. by apply (Qlt_irrefl 0), (Qlt_trans _ b).
Qed.

Section ScriptFacts.
Variable pow : Q → Q → option Q.
Variable float_str : Q → string.

Lemma print_results_run i results w :
  print_results float_str i results w
  = (Ok tt, mkWorld (stdin w) (stdout w ++ result_lines float_str i results)).
Proof.
  revert i w. induction results as [|[h s] results IH]; intros i w.
  - simpl. unfold io_ret. destruct w. simpl. by rewrite app_nil_r.
  - simpl. unfold io_bind, print. simpl. rewrite IH. simpl.
    by rewrite <- app_assoc.
Qed.

Lemma result_lines_length i results :
  length (result_lines float_str i results) = length results.
Proof.
  revert i. induction results as [|[h s] results IH]; intros i; simpl; [done|].
  by rewrite IH.
Qed.

(** The end of [main], from the result of the query on *)
Lemma report_run role map_choice results w :
  match results with
  | [] => print (no_heroes role)
  | _ :: _ =>
      print (top_heroes (length results) role map_choice) ;;;
      print_results float_str 1 results
  end w
  = (Ok tt,
     mkWorld (stdin w) (stdout w ++ report float_str role map_choice results)).
Proof.
  destruct results as [|t results]; [done|].
  unfold io_bind, print. cbn [fst snd]. rewrite print_results_run. simpl.
  by rewrite <- app_assoc.
Qed.

Lemma report_lower role role' map_choice results :
  lower role = lower role' →
  lower <$> report float_str role map_choice results
  = lower <$> report float_str role' map_choice results.
Proof.
  intros E. destruct results as [|t results]; simpl.
  - unfold no_heroes. by rewrite !lower_app, E.
  - unfold top_heroes. by rewrite !lower_app, E.
Qed.

(** The run of [main], step by step *)
Lemma main_unfold w :
  main pow float_str w
  = match _prompt_choice "Choose a gamemode:" gamemodes.*1
            (mkWorld (stdin w)
               (stdout w ++ ["Which gamemode are you playing?" +:+ nl])) with
    | (Raise e, w2) => (Raise e, w2)
    | (Ok gamemode, w2) =>
        match dict_getitem gamemodes gamemode w2 with
        | (Raise e, w2') => (Raise e, w2')
        | (Ok maps, w2') =>
            match _prompt_choice "Which map are you playing?" maps w2' with
            | (Raise e, w3) => (Raise e, w3)
            | (Ok map_choice, w3) =>
                match input ("Which role are you picking? (e.g. DPS, Support, Tank)"
                             +:+ nl +:+ "> ") w3 with
                | (Raise e, w4) => (Raise e, w4)
                | (Ok role_line, w4) =>
                    match recommend pow HEROES (strip role_line) map_choice 3
                            default_map_weight default_role_weight
                            default_bonus_weight with
                    | None => (Raise ScoreError, w4)
                    | Some results =>
                        (Ok tt,
                         mkWorld (stdin w4)
                           (stdout w4 ++ report float_str (strip role_line)
                                           map_choice results))
                    end
                end
            end
        end
    end.
Proof.
  unfold main. unfold io_bind at 1. cbn [print fst snd]. unfold io_bind at 1.
  destruct (_prompt_choice _ _ _) as [[g|e] w2]; [|done].
  unfold io_bind at 1. destruct (dict_getitem _ _ _) as [[maps|e] w2']; [|done].
  unfold io_bind at 1. destruct (_prompt_choice _ _ _) as [[m|e] w3]; [|done].
  unfold io_bind at 1. destruct (input _ _) as [[role_line|e] w4]; [|done].
  cbn zeta. unfold io_bind at 1.
  destruct (recommend _ _ _ _ _ _ _ _) as [results|]; [|done].
  cbn [io_score]. unfold io_ret at 1. by rewrite report_run.
Qed.

(** How a run of [main] can end. *)
Lemma main_cases w r w' :
  main pow float_str w = (r, w') →
  stdin w' `suffix_of` stdin w ∧
  stdout w `prefix_of` stdout w' ∧
  (r = Raise EOFError ∧ stdin w' = [] ∨
   (∃ gamemode maps map_choice role_line,
      (gamemode, maps) ∈ gamemodes ∧ map_choice ∈ maps ∧
      role_line ∈ stdin w ∧
      match recommend pow HEROES (strip role_line) map_choice 3
              default_map_weight default_role_weight default_bonus_weight with
      | None => r = Raise ScoreError
      | Some results =>
          r = Ok tt ∧
          ∃ before,
            stdout w'
            = before ++ report float_str (strip role_line) map_choice results
      end)).
Proof.
  unfold main. unfold io_bind at 1. cbn [print fst snd].
  set (w1 := {| stdin := stdin w; stdout := _ |}).
  assert (stdout w `prefix_of` stdout w1) as Hout1 by (by apply prefix_app_r).
  unfold io_bind at 1.
  destruct (_prompt_choice "Choose a gamemode:" gamemodes.*1 w1)
    as [r1 w2] eqn:E1.
  apply prompt_choice_cases in E1 as (Hin2 & Hout2 & [(g & -> & Hg & _)|[-> Hnil]]);
    [|intros [= <- <-]; split; [by rewrite Hnil; apply suffix_nil|];
      split; [by etrans|by left]].
  destruct (dict_getitem_key gamemodes g w2 Hg) as (maps & Hmaps & Eget).
  unfold io_bind at 1. rewrite Eget. unfold io_bind at 1.
  destruct (_prompt_choice "Which map are you playing?" maps w2)
    as [r2 w3] eqn:E2.
  apply prompt_choice_cases in E2 as (Hin3 & Hout3 & [(m & -> & Hm & _)|[-> Hnil]]);
    [|intros [= <- <-]; split; [by rewrite Hnil; apply suffix_nil|];
      split; [by do 2 (etrans; [|done])|by left]].
  unfold io_bind at 1. unfold input.
  destruct (stdin w3) as [|role_line rest] eqn:E3.
  { intros [= <- <-]. simpl. split; [apply suffix_nil|].
    split; [|by left].
    etrans; [exact Hout1|]. etrans; [exact Hout2|]. etrans; [exact Hout3|].
    by apply prefix_app_r. }
  assert (role_line :: rest `suffix_of` stdin w) as Hsuf
    by (etrans; [exact Hin3|exact Hin2]).
  assert (role_line ∈ stdin w) as Hrole.
  { destruct Hsuf as [k ->]. apply elem_of_app. right. left. }
  assert (rest `suffix_of` stdin w) as Hrest.
  { etrans; [|exact Hsuf]. by apply suffix_cons_r. }
  set (w4 := {| stdin := rest; stdout := _ |}).
  assert (stdout w `prefix_of` stdout w4) as Hout4.
  { etrans; [exact Hout1|]. etrans; [exact Hout2|]. etrans; [exact Hout3|].
    by apply prefix_app_r. }
  cbn zeta. unfold io_bind at 1.
  destruct (recommend pow HEROES (strip role_line) m 3 default_map_weight
              default_role_weight default_bonus_weight) as [results|] eqn:Erec.
  - cbn [io_score]. unfold io_ret at 1. rewrite report_run.
    intros [= <- <-]. cbn [stdin stdout].
    split; [done|]. split; [by apply prefix_app_r|].
    right. exists g, maps, m, role_line. rewrite Erec. eauto 10.
  - cbn [io_score]. unfold io_raise. intros [= <- <-].
    split; [done|]. split; [done|].
    right. exists g, maps, m, role_line. rewrite Erec. eauto 10.
Qed.

(** X17. The whole dialogue: when the input holds, after lines that are no
    gamemode, an answer that stands for a gamemode, then, after lines that
    are no map of this gamemode, an answer that stands for one of its maps,
    and then one more line, and the query for the role on this line
    succeeds, then [main] ends normally.  It has read the input up to this
    line and has written the greeting, the first prompt once for every
    rejected line and once more, the second prompt likewise, the question
    for the role and the report of the result. *)
Theorem main_dialogue w bad1 a1 bad2 a2 role_line rest gamemode maps
    map_choice results :
  stdin w = bad1 ++ a1 :: bad2 ++ a2 :: role_line :: rest →
  Forall (λ a, ¬ valid_answer gamemodes.*1 a) bad1 →
  chosen_option gamemodes.*1 a1 = Some gamemode →
  (gamemode, maps) ∈ gamemodes →
  Forall (λ a, ¬ valid_answer maps a) bad2 →
  chosen_option maps a2 = Some map_choice →
  recommend pow HEROES (strip role_line) map_choice 3
    default_map_weight default_role_weight default_bonus_weight
    = Some results →
  main pow float_str w
  = (Ok tt,
     mkWorld rest
       (stdout w
          ++ ["Which gamemode are you playing?" +:+ nl]
          ++ mjoin (replicate (length bad1)
                      (rejected "Choose a gamemode:" gamemodes.*1))
          ++ asked "Choose a gamemode:"
          ++ mjoin (replicate (length bad2)
                      (rejected "Which map are you playing?" maps))
          ++ asked "Which map are you playing?"
          ++ ["Which role are you picking? (e.g. DPS, Support, Tank)"
              +:+ nl +:+ "> "]
          ++ report float_str (strip role_line) map_choice results)).
Proof.
  intros Hin Hbad1 Hc1 Hg Hbad2 Hc2 Hrec. rewrite main_unfold.
  unfold _prompt_choice at 1. cbn [stdin]. rewrite Hin, prompt_loop_run.
  rewrite (list_find_first (valid_answer gamemodes.*1) bad1 a1)
    by eauto using chosen_option_is_valid.
  rewrite Hc1. rewrite (dict_getitem_NoDup gamemodes gamemode maps)
    by auto using gamemodes_NoDup.
  rewrite cons_middle, app_assoc, drop_app_length'
    by (rewrite length_app; simpl; lia).
  unfold _prompt_choice at 1. cbn [stdin]. rewrite prompt_loop_run.
  rewrite (list_find_first (valid_answer maps) bad2 a2)
    by eauto using chosen_option_is_valid.
  rewrite Hc2.
  rewrite cons_middle, app_assoc, drop_app_length'
    by (rewrite length_app; simpl; lia).
  unfold input. cbn [stdin stdout]. rewrite Hrec. cbn [stdin stdout].
  by rewrite <- !app_assoc.
Qed.

(** X18. What a run of [main] that ends normally has done: it has chosen
    a gamemode of the table and a map of this gamemode, has read the role
    from a line of the input, and the last texts it has written are the
    report of the query for this role and map.  The result holds at most
    three entries, all of them heroes of the dataset that can play the
    role; the report is one line for an empty result, and a header followed
    by one line for each entry otherwise. *)
Theorem main_report w w' :
  main pow float_str w = (Ok tt, w') →
  ∃ gamemode maps map_choice role_line results before,
    (gamemode, maps) ∈ gamemodes ∧
    map_choice ∈ maps ∧
    role_line ∈ stdin w ∧
    recommend pow HEROES (strip role_line) map_choice 3
      default_map_weight default_role_weight default_bonus_weight
      = Some results ∧
    (length results ≤ 3)%nat ∧
    (∀ h s, (h, s) ∈ results →
       h ∈ HEROES ∧ lower (strip role_line) ∈ roles h) ∧
    stdout w' = before ++ report float_str (strip role_line) map_choice results ∧
    length (report float_str (strip role_line) map_choice results)
    = (if results is [] then 1 else S (length results))%nat.
Proof.
  intros (_ & _ & [[[=] _]|(g & maps & m & role_line & Hg & Hm & Hr & Hrec)])%main_cases.
  revert Hrec.
  destruct (recommend _ _ _ _ _ _ _ _) as [results|] eqn:Erec; [|intros [=]].
  intros [_ [before Hout]].
  exists g, maps, m, role_line, results, before.
  repeat (split; [done|]). split; [|split; [|split; [done|]]].
  - apply recommend_Some in Erec as (scored & _ & ->).
    pose proof (slice_to_length (list_sort key_ltb sort_key scored) 3) as Hl.
    lia.
  - intros h s Hin. apply candidates_elem.
    by destruct (recommend_elem _ _ _ _ _ _ _ _ _ _ _ Erec Hin).
  - destruct results as [|t results]; [done|].
    unfold report. cbn [length]. by rewrite result_lines_length.
Qed.

(** X19. [main] raises nothing but [EOFError], and this only once the
    input is used up, or what the power raises in the scorer: the lookup of
    the chosen gamemode in the table, the search of the answer among the
    lowercased options and the indexing of the options never fail. *)
Theorem main_raises w e w' :
  main pow float_str w = (Raise e, w') →
  (e = EOFError ∧ stdin w' = []) ∨ e = ScoreError.
Proof.
  intros (_ & _ & [[[= ->] ?]|(g & maps & m & role_line & _ & _ & _ & Hrec)])%main_cases.
  - by left.
  - revert Hrec. destruct (recommend _ _ _ _ _ _ _ _) as [results|].
    + by intros [[=] _].
    + intros [= ->]. by right.
Qed.

(** X20. On the dataset of the script the scorer does not fail: with a
    power that is defined for positive bases and the exponent of the default
    bonus weight, a run of [main] ends normally, or in [EOFError] with the
    input used up. *)
Theorem main_ends w :
  pow_on_positive pow (Qred (default_bonus_weight * 10)) →
  (main pow float_str w).1 = Ok tt ∨
  (main pow float_str w).1 = Raise EOFError ∧
  stdin (main pow float_str w).2 = [].
Proof.
  intros Hpow.
  destruct (main pow float_str w) as [r w'] eqn:E.
  apply main_cases in E
    as (_ & _ & [[-> ?]|(g & maps & m & role_line & _ & _ & _ & Hrec)]);
    [by right|].
  revert Hrec.
  destruct (recommend _ _ _ _ _ _ _ _) as [results|] eqn:Erec;
    [intros [-> _]; by left|].
  exfalso. apply eq_None_not_Some in Erec. apply Erec.
  apply recommend_is_Some. intros h [Hh _]%candidates_elem.
  apply Hpow. rewrite Qred_correct. by apply HEROES_bonus_positive.
Qed.

(** X21. The dialogue does not see the case of the answers nor the white
    space around them: on two inputs that agree line by line up to these,
    [main] ends in the same way, leaves inputs that agree in the same way,
    and writes the same texts up to the case of letters (the report quotes
    the role as it was typed). *)
Theorem main_insensitive w w' :
  Forall2 same_answer (stdin w) (stdin w') →
  ∃ written written',
    (main pow float_str w).1 = (main pow float_str w').1 ∧
    stdout (main pow float_str w).2 = stdout w ++ written ∧
    stdout (main pow float_str w').2 = stdout w' ++ written' ∧
    lower <$> written = lower <$> written' ∧
    Forall2 same_answer (stdin (main pow float_str w).2)
      (stdin (main pow float_str w').2).
Proof.
  intros Hin. rewrite !main_unfold.
  set (w1 := mkWorld (stdin w) _). set (w1' := mkWorld (stdin w') _).
  destruct (prompt_choice_related "Choose a gamemode:" gamemodes.*1 w1 w1' Hin)
    as (written1 & Hr1 & Ho1 & Ho1' & Hin2).
  destruct (_prompt_choice "Choose a gamemode:" gamemodes.*1 w1) as [r1 w2],
    (_prompt_choice "Choose a gamemode:" gamemodes.*1 w1') as [r1' w2'].
  subst w1 w1'. simpl in Hr1, Ho1, Ho1', Hin2. subst r1'.
  rewrite <- !app_assoc in Ho1, Ho1'.
  destruct r1 as [g|e]; [|by eexists _, _].
  rewrite (dict_getitem_run gamemodes g w2), (dict_getitem_run gamemodes g w2').
  destruct (dict_getitem gamemodes g (mkWorld [] [])).1 as [maps|e];
    [|by eexists _, _].
  destruct (prompt_choice_related "Which map are you playing?" maps w2 w2' Hin2)
    as (written2 & Hr2 & Ho2 & Ho2' & Hin3).
  destruct (_prompt_choice "Which map are you playing?" maps w2) as [r2 w3],
    (_prompt_choice "Which map are you playing?" maps w2') as [r2' w3'].
  simpl in Hr2, Ho2, Ho2', Hin3. subst r2'.
  rewrite Ho1 in Ho2. rewrite Ho1' in Ho2'. rewrite <- !app_assoc in Ho2, Ho2'.
  destruct r2 as [m|e]; [|by eexists _, _].
  unfold input.
  destruct Hin3 as [|a b rest rest' Hab Hrest].
  { cbn. rewrite Ho2, Ho2', <- !app_assoc. eexists _, _. by repeat split. }
  cbn [stdin stdout].
  rewrite (recommend_lower pow HEROES (strip a) (strip b) m m) by done.
  destruct (recommend pow HEROES (strip b) m 3 default_map_weight
              default_role_weight default_bonus_weight) as [results|].
  - cbn. rewrite Ho2, Ho2', <- !app_assoc. eexists _, _.
    split; [done|]. split; [done|]. split; [done|]. split; [|done].
    rewrite !fmap_app.
    by rewrite (report_lower (strip a) (strip b)).
  - cbn. rewrite Ho2, Ho2', <- !app_assoc. eexists _, _. by repeat split.
Qed.
End ScriptFacts.

Lemma main_dialogue_witness :
  ∃ results,
    main pow_dec (λ _, "?")
      (mkWorld ["chess"; " CONVOY "; "midtown"; " Dps "; "left"] [])
    = (Ok tt,
       mkWorld ["left"]
         ([] ++ ["Which gamemode are you playing?" +:+ nl]
          ++ mjoin (replicate 1 (rejected "Choose a gamemode:" gamemodes.*1))
          ++ asked "Choose a gamemode:"
          ++ mjoin (replicate 0
                      (rejected "Which map are you playing?"
                         ["Midtown"; "Arakko"; "Spider-Islands";
                          "Yggdrasill Path"]))
          ++ asked "Which map are you playing?"
          ++ ["Which role are you picking? (e.g. DPS, Support, Tank)"
              +:+ nl +:+ "> "]
          ++ report (λ _, "?") (strip " Dps ") "Midtown" results)).
Proof.
  eexists.
  apply (main_dialogue pow_dec (λ _, "?")
           (mkWorld ["chess"; " CONVOY "; "midtown"; " Dps "; "left"] [])
           ["chess"] " CONVOY " [] "midtown" " Dps " ["left"] "Convoy"
           ["Midtown"; "Arakko"; "Spider-Islands"; "Yggdrasill Path"]
           "Midtown").
  - reflexivity.
  - apply (bool_decide_unpack _). by vm_compute.
  - reflexivity.
  - apply (bool_decide_unpack _). by vm_compute.
  - constructor.
  - reflexivity.
  - vm_compute. reflexivity.
Defined.

Lemma main_report_witness :
  ∃ w',
    main pow_dec (λ _, "?") (mkWorld ["convoy"; "arakko"; "Tank"] [])
      = (Ok tt, w') ∧
    ∃ gamemode maps map_choice role_line results before,
      (gamemode, maps) ∈ gamemodes ∧
      map_choice ∈ maps ∧
      role_line ∈ ["convoy"; "arakko"; "Tank"] ∧
      recommend pow_dec HEROES (strip role_line) map_choice 3
        default_map_weight default_role_weight default_bonus_weight
        = Some results ∧
      (length results ≤ 3)%nat ∧
      (∀ h s, (h, s) ∈ results →
         h ∈ HEROES ∧ lower (strip role_line) ∈ roles h) ∧
      stdout w'
      = before ++ report (λ _, "?") (strip role_line) map_choice results ∧
      length (report (λ _, "?") (strip role_line) map_choice results)
      = (if results is [] then 1 else S (length results))%nat.
Proof.
  eexists. split; [vm_compute; reflexivity|].
  apply (main_report pow_dec (λ _, "?")
           (mkWorld ["convoy"; "arakko"; "Tank"] [])).
  vm_compute. reflexivity.
Defined.

Lemma main_raises_witness :
  ∃ w',
    main pow_dec (λ _, "?") (mkWorld ["convoy"; "paris"] [])
      = (Raise EOFError, w') ∧
    ((EOFError = EOFError ∧ stdin w' = []) ∨ EOFError = ScoreError).
Proof.
  eexists. split; [vm_compute; reflexivity|].
  apply (main_raises pow_dec (λ _, "?") (mkWorld ["convoy"; "paris"] [])
           EOFError).
  vm_compute. reflexivity.
Defined.

Lemma main_ends_witness :
  (main pow_dec (λ _, "?") (mkWorld ["convoy"; "midtown"] [])).1 = Ok tt ∨
  (main pow_dec (λ _, "?") (mkWorld ["convoy"; "midtown"] [])).1
    = Raise EOFError ∧
  stdin (main pow_dec (λ _, "?") (mkWorld ["convoy"; "midtown"] [])).2 = [].
Proof.
  apply (main_ends pow_dec (λ _, "?") (mkWorld ["convoy"; "midtown"] [])).
  apply pow_dec_on_positive.
Defined.

Lemma main_insensitive_witness :
  ∃ written written',
    (main pow_dec (λ _, "?") (mkWorld ["convoy"; "midtown"; "dps"] [])).1
    = (main pow_dec (λ _, "?")
         (mkWorld [" CONVOY"; "Midtown  "; " DPS "] ["hello"])).1 ∧
    stdout (main pow_dec (λ _, "?")
              (mkWorld ["convoy"; "midtown"; "dps"] [])).2
    = [] ++ written ∧
    stdout (main pow_dec (λ _, "?")
              (mkWorld [" CONVOY"; "Midtown  "; " DPS "] ["hello"])).2
    = ["hello"] ++ written' ∧
    lower <$> written = lower <$> written' ∧
    Forall2 same_answer
      (stdin (main pow_dec (λ _, "?")
                (mkWorld ["convoy"; "midtown"; "dps"] [])).2)
      (stdin (main pow_dec (λ _, "?")
                (mkWorld [" CONVOY"; "Midtown  "; " DPS "] ["hello"])).2).
Proof.
  apply (main_insensitive pow_dec (λ _, "?")
           (mkWorld ["convoy"; "midtown"; "dps"] [])
           (mkWorld [" CONVOY"; "Midtown  "; " DPS "] ["hello"])).
  repeat (constructor; [reflexivity|]). constructor.
Defined.
